(** * gotify-webhooker: the plugin of [plugin.go], embedded and verified

    The plugin relays the notifications of a gotify stream to a webhook.
    This file embeds [plugin.go] function by function:

    - [SendPostToWebhook]      (plugin.go 53-85),
    - [TestSocket]             (plugin.go 87-94),
    - [ValidateAndSetConfig]   (plugin.go 109-133),
    - [Enable] and [Disable]   (plugin.go 135-191),
    - [StartListener]          (plugin.go 193-268): its reader goroutine and
      its control loop, interleaved by an explicit schedule.

    Everything the plugin reaches through a library or through the host
    (the HTTP client, the websocket connection, the markdown renderer, the
    storage handler, the struct validator) is an explicit parameter or an
    explicit piece of state; [encoding/json] is modelled for the two record
    shapes the plugin decodes. *)

From Stdlib Require Import String Ascii List ZArith NArith Bool Lia.
Import ListNotations.
Open Scope string_scope.

#[local] Set Warnings "-register-all".

(** A Go [error] value is identified with its message; [None] is [nil]. *)
Definition GoError := string.

(* ------------------------------------------------------------------ *)
(** ** encoding/json, as far as the plugin uses it *)

Module Json.

(** The double quote, written by code so that no literal needs it. *)
Definition dq : ascii := "034"%char.

(** [quoted s] is [s] between double quotes (no escaping). *)
Definition quoted (s : string) : string :=
  String dq (s ++ String dq EmptyString).

Inductive value : Type :=
| Null
| Bool (b : bool)
| Num (raw : string)
| Str (s : string)
| Arr (items : list value)
| Obj (members : list (string * value)).

Definition isSpace (c : ascii) : bool :=
  match nat_of_ascii c with
  | 32 | 9 | 10 | 13 => true
  | _ => false
  end.

Fixpoint skipws (s : string) : string :=
  match s with
  | String c r => if isSpace c then skipws r else s
  | EmptyString => s
  end.

Definition isDigit (c : ascii) : bool :=
  let n := nat_of_ascii c in (48 <=? n)%nat && (n <=? 57)%nat.

(** The longest prefix of digits, and what follows it. *)
Fixpoint digits (s : string) : string * string :=
  match s with
  | String c r =>
      if isDigit c then let (ds, r') := digits r in (String c ds, r')
      else (EmptyString, s)
  | EmptyString => (EmptyString, s)
  end.

Definition isEmpty (s : string) : bool :=
  match s with EmptyString => true | _ => false end.

(** Integer part of a JSON number: [0], or a non-zero digit and digits. *)
Definition pint (s : string) : option (string * string) :=
  match s with
  | String c r =>
      if Ascii.eqb c "0" then Some (String c EmptyString, r)
      else if isDigit c then let (ds, r') := digits r in Some (String c ds, r')
      else None
  | EmptyString => None
  end.

(** [eat c s]: what follows [c] when [s] starts with it. *)
Definition eat (c : ascii) (s : string) : option string :=
  match s with
  | String d r => if Ascii.eqb d c then Some r else None
  | EmptyString => None
  end.

Definition pfrac (s : string) : option (string * string) :=
  match eat "." s with
  | Some r =>
      let (ds, r') := digits r in
      if isEmpty ds then None else Some (String "." ds, r')
  | None => Some (EmptyString, s)
  end.

Definition psign (s : string) : string * string :=
  match eat "+" s with
  | Some r => ("+", r)
  | None =>
      match eat "-" s with
      | Some r => ("-", r)
      | None => (EmptyString, s)
      end
  end.

Definition pexp (s : string) : option (string * string) :=
  match s with
  | String c r =>
      if Ascii.eqb c "e" || Ascii.eqb c "E" then
        let (sg, r1) := psign r in
        let (ds, r2) := digits r1 in
        if isEmpty ds then None else Some (String c (sg ++ ds), r2)
      else Some (EmptyString, s)
  | EmptyString => Some (EmptyString, s)
  end.

(** A JSON number literal at the head of [s]: its text and the rest. *)
Definition pnumber (s : string) : option (string * string) :=
  let (sg, s1) :=
    match eat "-" s with
    | Some r => ("-", r)
    | None => (EmptyString, s)
    end in
  match pint s1 with
  | None => None
  | Some (ip, s2) =>
      match pfrac s2 with
      | None => None
      | Some (fp, s3) =>
          match pexp s3 with
          | None => None
          | Some (ep, s4) => Some (sg ++ ip ++ fp ++ ep, s4)
          end
      end
  end.

Definition hexval (c : ascii) : option N :=
  let n := N_of_ascii c in
  if ((48 <=? n) && (n <=? 57))%N then Some (n - 48)%N
  else if ((97 <=? n) && (n <=? 102))%N then Some (n - 87)%N
  else if ((65 <=? n) && (n <=? 70))%N then Some (n - 55)%N
  else None.

(** Four hexadecimal digits (the argument of a [\u] escape). *)
Definition hex4 (s : string) : option (N * string) :=
  match s with
  | String a (String b (String c (String d r))) =>
      match hexval a, hexval b, hexval c, hexval d with
      | Some x, Some y, Some z, Some w =>
          Some (((x * 16 + y) * 16 + z) * 16 + w, r)%N
      | _, _, _, _ => None
      end
  | _ => None
  end.

Definition byte (n : N) : ascii := ascii_of_N n.

(** UTF-8 encoding of a code point. *)
Definition utf8 (cp : N) : string :=
  if (cp <? 128)%N then String (byte cp) EmptyString
  else if (cp <? 2048)%N then
    String (byte (192 + cp / 64))
      (String (byte (128 + cp mod 64)) EmptyString)
  else if (cp <? 65536)%N then
    String (byte (224 + cp / 4096))
      (String (byte (128 + (cp / 64) mod 64))
         (String (byte (128 + cp mod 64)) EmptyString))
  else
    String (byte (240 + cp / 262144))
      (String (byte (128 + (cp / 4096) mod 64))
         (String (byte (128 + (cp / 64) mod 64))
            (String (byte (128 + cp mod 64)) EmptyString))).

Definition replacementChar : N := 65533.

Definition isSurrogate (cp : N) : bool := ((55296 <=? cp) && (cp <? 57344))%N.
Definition isHigh (cp : N) : bool := ((55296 <=? cp) && (cp <? 56320))%N.
Definition isLow (cp : N) : bool := ((56320 <=? cp) && (cp <? 57344))%N.

Definition simpleEscape (c : ascii) : option ascii :=
  match nat_of_ascii c with
  | 34 => Some dq
  | 92 => Some "\"%char
  | 47 => Some "/"%char
  | 98 => Some "008"%char
  | 102 => Some "012"%char
  | 110 => Some "010"%char
  | 114 => Some "013"%char
  | 116 => Some "009"%char
  | _ => None
  end.

Definition prepend (p : string) (x : option (string * string))
  : option (string * string) :=
  match x with
  | Some (s, r) => Some (p ++ s, r)
  | None => None
  end.

(** The second half of a surrogate pair, if [s] starts with one. *)
Definition lowSurrogate (s : string) : option (N * string) :=
  match eat "\" s with
  | Some r =>
      match eat "u" r with
      | Some r' =>
          match hex4 r' with
          | Some (lo, r'') => if isLow lo then Some (lo, r'') else None
          | None => None
          end
      | None => None
      end
  | None => None
  end.

Definition inRange (lo hi : N) (c : ascii) : bool :=
  let n := N_of_ascii c in ((lo <=? n) && (n <=? hi))%N.

(** A byte that continues a UTF-8 sequence. *)
Definition continuation (c : ascii) : bool := inRange 128 191 c.

(** The well-formed UTF-8 sequence of two to four bytes at the head of
    [s], and what follows it; [None] where [utf8.DecodeRune] gives
    [RuneError] with width one: a byte that starts no sequence, a
    sequence cut short, an overlong form, a surrogate, or a code point
    past U+10FFFF. *)
Definition utf8Seq (s : string) : option (string * string) :=
  match s with
  | EmptyString => None
  | String b0 r0 =>
      let n0 := N_of_ascii b0 in
      if (n0 <? 194)%N then None
      else if (n0 <? 224)%N then
        match r0 with
        | String b1 r1 =>
            if continuation b1
            then Some (String b0 (String b1 EmptyString), r1)
            else None
        | _ => None
        end
      else if (n0 <? 240)%N then
        match r0 with
        | String b1 (String b2 r2) =>
            if inRange (if (n0 =? 224)%N then 160 else 128)
                       (if (n0 =? 237)%N then 159 else 191) b1
               && continuation b2
            then Some (String b0 (String b1 (String b2 EmptyString)), r2)
            else None
        | _ => None
        end
      else if (n0 <? 245)%N then
        match r0 with
        | String b1 (String b2 (String b3 r3)) =>
            if inRange (if (n0 =? 240)%N then 144 else 128)
                       (if (n0 =? 244)%N then 143 else 191) b1
               && continuation b2 && continuation b3
            then Some (String b0 (String b1 (String b2 (String b3
                                                          EmptyString))),
                       r3)
            else None
        | _ => None
        end
      else None
  end.

(** The body of a string literal, after its opening quote: the decoded
    text and what follows the closing quote.  Escapes are decoded as
    [encoding/json] does (a surrogate pair becomes one code point, a lone
    surrogate U+FFFD); a control character is a syntax error.  The text
    is coerced to UTF-8: a well-formed sequence is copied, and each byte
    from 128 up that belongs to none becomes U+FFFD. *)
Fixpoint pstr (n : nat) (s : string) : option (string * string) :=
  match n with
  | O => None
  | S n' =>
      match s with
      | EmptyString => None
      | String c r =>
          if Ascii.eqb c dq then Some (EmptyString, r)
          else if (nat_of_ascii c <? 32)%nat then None
          else if Ascii.eqb c "\" then
            match r with
            | EmptyString => None
            | String e r1 =>
                match simpleEscape e with
                | Some d => prepend (String d EmptyString) (pstr n' r1)
                | None =>
                    if Ascii.eqb e "u" then
                      match hex4 r1 with
                      | None => None
                      | Some (cp, r2) =>
                          if isHigh cp then
                            match lowSurrogate r2 with
                            | Some (lo, r3) =>
                                prepend
                                  (utf8 (65536 + (cp - 55296) * 1024
                                         + (lo - 56320))%N)
                                  (pstr n' r3)
                            | None =>
                                prepend (utf8 replacementChar) (pstr n' r2)
                            end
                          else if isSurrogate cp then
                            prepend (utf8 replacementChar) (pstr n' r2)
                          else prepend (utf8 cp) (pstr n' r2)
                      end
                    else None
                end
            end
          else if (nat_of_ascii c <? 128)%nat then
            prepend (String c EmptyString) (pstr n' r)
          else
            match utf8Seq s with
            | Some (b, r') => prepend b (pstr n' r')
            | None => prepend (utf8 replacementChar) (pstr n' r)
            end
      end
  end.

(** [dropPrefix p s]: what follows [p] when [s] starts with it. *)
Fixpoint dropPrefix (p s : string) : option string :=
  match p with
  | EmptyString => Some s
  | String a p' =>
      match s with
      | String b s' => if Ascii.eqb a b then dropPrefix p' s' else None
      | EmptyString => None
      end
  end.

Definition literal (lit : string) (v : value) (s : string)
  : option (value * string) :=
  match dropPrefix lit s with
  | Some r => Some (v, r)
  | None => None
  end.

(** [maxNestingDepth] of [encoding/json]: an array or object that would
    be the 10001st open one is a syntax error. *)
Definition maxNestingDepth : N := 10000.

(** Recursive descent over the text; [n] bounds the nesting of calls and
    [d] counts the arrays and objects that are open around [s]. *)
Fixpoint pvalue (n : nat) (d : N) (s : string) : option (value * string) :=
  match n with
  | O => None
  | S n' =>
      match s with
      | EmptyString => None
      | String c r =>
          if Ascii.eqb c "{" then
            if (d <? maxNestingDepth)%N then
              match eat "}" (skipws r) with
              | Some r' => Some (Obj [], r')
              | None =>
                  match pmembers n' (d + 1)%N (skipws r) with
                  | Some (ms, r') => Some (Obj ms, r')
                  | None => None
                  end
              end
            else None
          else if Ascii.eqb c "[" then
            if (d <? maxNestingDepth)%N then
              match eat "]" (skipws r) with
              | Some r' => Some (Arr [], r')
              | None =>
                  match pelems n' (d + 1)%N (skipws r) with
                  | Some (vs, r') => Some (Arr vs, r')
                  | None => None
                  end
              end
            else None
          else if Ascii.eqb c dq then
            match pstr (String.length r) r with
            | Some (t, r') => Some (Str t, r')
            | None => None
            end
          else if Ascii.eqb c "t" then literal "true" (Bool true) s
          else if Ascii.eqb c "f" then literal "false" (Bool false) s
          else if Ascii.eqb c "n" then literal "null" Null s
          else
            match pnumber s with
            | Some (raw, r') => Some (Num raw, r')
            | None => None
            end
      end
  end
with pelems (n : nat) (d : N) (s : string)
  : option (list value * string) :=
  match n with
  | O => None
  | S n' =>
      match pvalue n' d s with
      | None => None
      | Some (v, r) =>
          match eat "," (skipws r) with
          | Some r' =>
              match pelems n' d (skipws r') with
              | Some (vs, r'') => Some (v :: vs, r'')
              | None => None
              end
          | None =>
              match eat "]" (skipws r) with
              | Some r' => Some ([v], r')
              | None => None
              end
          end
      end
  end
with pmembers (n : nat) (d : N) (s : string)
  : option (list (string * value) * string) :=
  match n with
  | O => None
  | S n' =>
      match eat dq s with
      | None => None
      | Some r =>
          match pstr (String.length r) r with
          | None => None
          | Some (k, r1) =>
              match eat ":" (skipws r1) with
              | None => None
              | Some r2 =>
                  match pvalue n' d (skipws r2) with
                  | None => None
                  | Some (v, r3) =>
                      match eat "," (skipws r3) with
                      | Some r4 =>
                          match pmembers n' d (skipws r4) with
                          | Some (ms, r5) => Some ((k, v) :: ms, r5)
                          | None => None
                          end
                      | None =>
                          match eat "}" (skipws r3) with
                          | Some r4 => Some ([(k, v)], r4)
                          | None => None
                          end
                      end
                  end
              end
          end
      end
  end.

(** The fuel [parse] gives the descent; [parse_fuel] below shows that
    more would change nothing. *)
Definition fuel (s : string) : nat := 2 * String.length s + 2.

(** A whole text: one value between optional white space, with nothing
    open around it.  [None] is the [SyntaxError] of [json.Unmarshal],
    which then leaves its target as it was. *)
Definition parse (s : string) : option value :=
  match pvalue (fuel s) 0 (skipws s) with
  | Some (v, r) => if isEmpty (skipws r) then Some v else None
  | None => None
  end.

End Json.

(* ------------------------------------------------------------------ *)
(** ** The records of plugin.go and of the plugin API *)

(** plugin.go 19-23; the tags give the member names of the JSON object. *)
Record WebhookPost : Type := {
  Username : string;
  Text : string;
  Html : string
}.

(** plugin.go 37-41.  No field carries a [validate] tag. *)
Record Config : Type := {
  WebhookUrl : string;
  HostServer : string;
  ClientToken : string
}.

(** plugin.go 43-45. *)
Record Storage : Type := {
  WasEnabled : bool
}.

(** [plugin.Message] of the gotify plugin API (no JSON tags: the member
    names are the field names).  [Extras] is a Go map, [None] when nil. *)
Record PluginMessage : Type := {
  Message : string;
  Title : string;
  Priority : Z;
  Extras : option (list (string * Json.value))
}.

(** [new(Storage)] and [plugin.Message{}]: the zero values. *)
Definition newStorage : Storage := {| WasEnabled := false |}.

Definition zeroMessage : PluginMessage :=
  {| Message := EmptyString; Title := EmptyString;
     Priority := 0%Z; Extras := None |}.

(** [plugin.StorageHandler]: [Load() ([]byte, error)] and
    [Save(b []byte) error], on a handler whose state is [S]. *)
Class StorageHandler (S : Type) : Type := {
  Load : S -> S * (string + GoError);
  Save : string -> S -> S * option GoError
}.

(** plugin.go 47-51.  The handler field holds the handler's state; a nil
    pointer or interface is [None]. *)
Record WebhookerPlugin (S : Type) : Type := {
  enabled : bool;
  storageHandler : option S;
  config : option Config
}.
Arguments enabled {S} _.
Arguments storageHandler {S} _.
Arguments config {S} _.

(** plugin.go 270-272: [&WebhookerPlugin{}]. *)
Definition NewGotifyPluginInstance (S : Type) : WebhookerPlugin S :=
  {| enabled := false; storageHandler := None; config := None |}.

(** plugin.go 96-98. *)
Definition SetStorageHandler {S : Type} (h : S) (c : WebhookerPlugin S)
  : WebhookerPlugin S :=
  {| enabled := enabled c; storageHandler := Some h; config := config c |}.

(** plugin.go 100-107. *)
Definition DefaultConfig : Config :=
  {| WebhookUrl := EmptyString;
     ClientToken := EmptyString;
     HostServer := "ws://localhost:8080" |}.

(* ------------------------------------------------------------------ *)
(** ** Decoding and encoding the records *)

Module Codec.
Import Json.

Definition upper (c : ascii) : ascii :=
  let n := nat_of_ascii c in
  if (97 <=? n)%nat && (n <=? 122)%nat then ascii_of_nat (n - 32) else c.

(** The case folding under which [encoding/json] matches a member name
    against a field name when no field has exactly that name: letters
    fold to upper case, and so do the two code points outside ASCII whose
    fold is an ASCII letter, U+017F (long s) and U+212A (kelvin sign). *)
Fixpoint foldName (s : string) : string :=
  match s with
  | EmptyString => EmptyString
  | String c r =>
      match nat_of_ascii c, r with
      | 197, String c2 r2 =>
          if (nat_of_ascii c2 =? 191)%nat then String "S" (foldName r2)
          else String c (foldName r)
      | 226, String c2 (String c3 r3) =>
          if (nat_of_ascii c2 =? 132)%nat && (nat_of_ascii c3 =? 170)%nat
          then String "K" (foldName r3)
          else String c (foldName r)
      | _, _ => String (upper c) (foldName r)
      end
  end.

Definition matchesField (field key : string) : bool :=
  String.eqb key field || String.eqb (foldName key) (foldName field).

Definition kind (v : value) : string :=
  match v with
  | Null => "null"
  | Bool _ => "bool"
  | Num _ => "number"
  | Str _ => "string"
  | Arr _ => "array"
  | Obj _ => "object"
  end.

(** An [UnmarshalTypeError]. *)
Definition typeError (v : value) (target : string) : GoError :=
  "json: cannot unmarshal " ++ kind v ++ " into Go value of type " ++ target.

Definition syntaxError : GoError := "json: syntax error".

(** [json.Unmarshal] keeps the first error it saves and goes on. *)
Definition saveError (saved new : option GoError) : option GoError :=
  match saved with
  | Some _ => saved
  | None => new
  end.

(** Decoding the members of an object into a struct, in the order of the
    text: [store] assigns one member and may report a type error. *)
Fixpoint decodeMembers {T : Type}
  (store : string -> value -> T -> T * option GoError)
  (ms : list (string * value)) (t : T) (saved : option GoError)
  : T * option GoError :=
  match ms with
  | [] => (t, saved)
  | (k, v) :: rest =>
      let (t', e) := store k v t in
      decodeMembers store rest t' (saveError saved e)
  end.

(** [json.Unmarshal(data, &t)] for a struct [t]: a text that is not valid
    JSON is rejected before anything is assigned; [null] assigns nothing;
    a value that is not an object is a type error. *)
Definition unmarshalStruct {T : Type} (target : string)
  (store : string -> value -> T -> T * option GoError)
  (data : string) (t : T) : T * option GoError :=
  match parse data with
  | None => (t, Some syntaxError)
  | Some (Obj ms) => decodeMembers store ms t None
  | Some Null => (t, None)
  | Some v => (t, Some (typeError v target))
  end.

Definition storeStorage (k : string) (v : value) (s : Storage)
  : Storage * option GoError :=
  if matchesField "wasEnabled" k then
    match v with
    | Bool b => ({| WasEnabled := b |}, None)
    | Null => (s, None)
    | _ => (s, Some (typeError v "bool"))
    end
  else (s, None).

(** [json.Unmarshal(storageBytes, storage)] (plugin.go 129). *)
Definition unmarshalStorage : string -> Storage -> Storage * option GoError :=
  unmarshalStruct "main.Storage" storeStorage.

(** [json.Marshal(storage)] (plugin.go 169, 187): one boolean member. *)
Definition marshalStorage (s : Storage) : string :=
  "{" ++ quoted "wasEnabled" ++ ":"
      ++ (if WasEnabled s then "true" else "false") ++ "}".

(** The value of a decimal digit string. *)
Fixpoint decimal (s : string) (acc : Z) : option Z :=
  match s with
  | EmptyString => Some acc
  | String c r =>
      if isDigit c
      then decimal r (acc * 10 + Z.of_nat (nat_of_ascii c - 48))%Z
      else None
  end.

(** [strconv.ParseInt(raw, 10, 64)] on the text of a JSON number. *)
Definition parseInt (raw : string) : option Z :=
  let r :=
    match eat "-" raw with
    | Some ds => option_map Z.opp (decimal ds 0%Z)
    | None => decimal raw 0%Z
    end in
  match r with
  | Some z =>
      if ((- 2 ^ 63 <=? z) && (z <? 2 ^ 63))%Z then Some z else None
  | None => None
  end.

(** The exponent of a JSON number, after its [e]; zero when there is
    none. *)
Definition exponentOf (s : string) : Z :=
  match s with
  | String _ r =>
      let (sg, r1) := psign r in
      let (ds, _) := digits r1 in
      match decimal ds 0%Z with
      | Some e => if String.eqb sg "-" then (- e)%Z else e
      | None => 0%Z
      end
  | EmptyString => 0%Z
  end.

(** The least magnitude that rounds to infinity as a float64: half an
    ulp past the largest finite value. *)
Definition float64Overflow : Z := (2 ^ 1024 - 2 ^ 970)%Z.

(** Whether [strconv.ParseFloat(raw, 64)] succeeds on the text of a JSON
    number: it fails only when the value rounds to an infinity.  The
    value is [m * 10 ^ e] for the digits [m] of the integer and fraction
    parts; the powers of ten are taken only where they decide. *)
Definition floatFits (raw : string) : bool :=
  let s1 := match eat "-" raw with Some r => r | None => raw end in
  let (ip, s2) := digits s1 in
  let (fp, s3) :=
    match eat "." s2 with
    | Some r => digits r
    | None => (EmptyString, s2)
    end in
  let ds := ip ++ fp in
  match decimal ds 0%Z with
  | None => true
  | Some m =>
      let e := (exponentOf s3 - Z.of_nat (String.length fp))%Z in
      if (m =? 0)%Z then true
      else if (0 <=? e)%Z then
        if (400 <? e)%Z then false
        else (m * 10 ^ e <? float64Overflow)%Z
      else if (Z.of_nat (String.length ds) <? - e)%Z then true
      else (m <? float64Overflow * 10 ^ (- e))%Z
  end.

(** The first number of a value, in the order of the text, that
    [json.Unmarshal] cannot turn into the float64 it stores for a number
    under an [interface{}]. *)
Fixpoint firstBadNumber (v : value) : option string :=
  match v with
  | Num raw => if floatFits raw then None else Some raw
  | Arr items =>
      (fix go (l : list value) : option string :=
         match l with
         | [] => None
         | x :: r =>
             match firstBadNumber x with
             | Some b => Some b
             | None => go r
             end
         end) items
  | Obj ms =>
      (fix go (l : list (string * value)) : option string :=
         match l with
         | [] => None
         | (_, x) :: r =>
             match firstBadNumber x with
             | Some b => Some b
             | None => go r
             end
         end) ms
  | _ => None
  end.

(** Assignment into a Go map: the key is replaced or added. *)
Fixpoint mapSet (k : string) (v : value) (m : list (string * value))
  : list (string * value) :=
  match m with
  | [] => [(k, v)]
  | (k', v') :: rest =>
      if String.eqb k k' then (k, v) :: rest else (k', v') :: mapSet k v rest
  end.

Definition mapSetAll (ms : list (string * value))
  (m : list (string * value)) : list (string * value) :=
  fold_left (fun acc kv => mapSet (fst kv) (snd kv) acc) ms m.

Definition withMessage (x : string) (m : PluginMessage) : PluginMessage :=
  {| Message := x; Title := Title m;
     Priority := Priority m; Extras := Extras m |}.
Definition withTitle (x : string) (m : PluginMessage) : PluginMessage :=
  {| Message := Message m; Title := x;
     Priority := Priority m; Extras := Extras m |}.
Definition withPriority (x : Z) (m : PluginMessage) : PluginMessage :=
  {| Message := Message m; Title := Title m;
     Priority := x; Extras := Extras m |}.
Definition withExtras (x : option (list (string * value)))
  (m : PluginMessage) : PluginMessage :=
  {| Message := Message m; Title := Title m;
     Priority := Priority m; Extras := x |}.

Definition storeString (v : value) (set : string -> PluginMessage)
  (m : PluginMessage) : PluginMessage * option GoError :=
  match v with
  | Str s => (set s, None)
  | Null => (m, None)
  | _ => (m, Some (typeError v "string"))
  end.

(** One member of a stream frame, assigned into a [plugin.Message]; a
    member that names no field is skipped.  The values under [Extras] are
    kept as parsed; a number among them that float64 cannot hold is a
    type error. *)
Definition storeMessage (k : string) (v : value) (m : PluginMessage)
  : PluginMessage * option GoError :=
  if matchesField "Message" k then
    storeString v (fun s => withMessage s m) m
  else if matchesField "Title" k then
    storeString v (fun s => withTitle s m) m
  else if matchesField "Priority" k then
    match v with
    | Num raw =>
        match parseInt raw with
        | Some z => (withPriority z m, None)
        | None => (m, Some (typeError v "int"))
        end
    | Null => (m, None)
    | _ => (m, Some (typeError v "int"))
    end
  else if matchesField "Extras" k then
    match v with
    | Obj ms =>
        (withExtras
           (Some (mapSetAll ms
                    (match Extras m with Some old => old | None => [] end)))
           m,
         match firstBadNumber v with
         | Some raw =>
             Some ("json: cannot unmarshal number " ++ raw
                   ++ " into Go value of type float64")
         | None => None
         end)
    | Null => (withExtras None m, None)
    | _ => (m, Some (typeError v "map[string]interface {}"))
    end
  else (m, None).

(** [json.Unmarshal(message, &incomingMsg)] (plugin.go 224) as
    [encoding/json] decodes a [plugin.Message] on a 64-bit platform. *)
Definition unmarshalMessage
  : string -> PluginMessage -> PluginMessage * option GoError :=
  unmarshalStruct "plugin.Message" storeMessage.

(** [json.Marshal(webhookPost)] (plugin.go 60): the three members in the
    order of the struct, each string as the literal [enc] writes for it.
    Marshalling a struct of three strings cannot fail. *)
Definition marshalWebhookPost (enc : string -> string) (p : WebhookPost)
  : string :=
  "{" ++ quoted "username" ++ ":" ++ enc (Username p)
      ++ "," ++ quoted "text" ++ ":" ++ enc (Text p)
      ++ "," ++ quoted "html" ++ ":" ++ enc (Html p) ++ "}".

End Codec.

(* ------------------------------------------------------------------ *)
(** ** What the plugin does to the outside *)

(** An [http.Request] as [SendPostToWebhook] builds it. *)
Record Request : Type := {
  Method : string;
  URL : string;
  Header : list (string * string);
  Body : string
}.

(** What [client.Do] hands back when the transport worked. *)
Record Response : Type := {
  StatusCode : Z;
  ResponseBody : string
}.

(** The lines the plugin logs, by call site.  [LogFatal] is [log.Fatal]:
    the line is printed and [os.Exit(1)] ends the process. *)
Inductive LogEntry : Type :=
| LogSending (p : WebhookPost)        (* plugin.go 62 *)
| LogTestDialError (e : GoError)      (* plugin.go 90 *)
| LogValidationError (e : GoError)    (* plugin.go 116 *)
| LogWebsocketUrl (url : string)      (* plugin.go 154 *)
| LogEnabled                          (* plugin.go 159 *)
| LogDisabled                         (* plugin.go 177 *)
| LogFatal (what : string) (e : GoError) (* plugin.go 200, 220, 225 *)
| LogConnected (url : string)         (* plugin.go 205 *)
| LogPostError (e : GoError)          (* plugin.go 231 *)
| LogWriteError (e : GoError)         (* plugin.go 247 *)
| LogInterrupt                        (* plugin.go 252 *)
| LogCloseError (e : GoError).        (* plugin.go 257 *)

(** The forwarder's view of the outside: the requests handed to
    [client.Do], oldest first, and the log. *)
Record Outside : Type := {
  posted : list Request;
  logged : list LogEntry
}.

Definition logLine (l : LogEntry) (o : Outside) : Outside :=
  {| posted := posted o; logged := logged o ++ [l] |}.

Definition doRequest (r : Request) (o : Outside) : Outside :=
  {| posted := posted o ++ [r]; logged := logged o |}.

(** The host's side of the lifecycle calls: the engine tasks started by
    [go c.StartListener(url)], the URLs dialled by the probe, the log. *)
Record Host : Type := {
  spawned : list string;
  dialled : list string;
  hostLog : list LogEntry
}.

Definition hostLogLine (l : LogEntry) (h : Host) : Host :=
  {| spawned := spawned h; dialled := dialled h; hostLog := hostLog h ++ [l] |}.

Definition spawn (url : string) (h : Host) : Host :=
  {| spawned := spawned h ++ [url]; dialled := dialled h; hostLog := hostLog h |}.

Definition recordDial (url : string) (h : Host) : Host :=
  {| spawned := spawned h; dialled := dialled h ++ [url]; hostLog := hostLog h |}.

(** How a lifecycle call ends: it returns an [error] (possibly nil) or it
    panics on a nil [config] or [storageHandler]. *)
Inductive Outcome : Type :=
| Returns (err : option GoError)
| Panics.

(** A websocket frame the control loop writes upstream. *)
Inductive Frame : Type :=
| TextMessage (payload : string)
| CloseMessage (code : Z) (reason : string).

(** [websocket.CloseNormalClosure]. *)
Definition CloseNormalClosure : Z := 1000.

(** One result of [ws.ReadMessage]. *)
Inductive ReadResult : Type :=
| ReadOk (message : string)
| ReadErr (e : GoError).

(** Where the body of [StartListener] stands. *)
Inductive MainState : Type :=
| Connecting                       (* before [Dial] has returned *)
| Connected                        (* in the [for]/[select] loop, 239-267 *)
| Closing                          (* in the inner [select], 261-264 *)
| Returned (err : option GoError). (* the function has returned *)

(** One run of [StartListener]: the connection, the two goroutines and
    what they have done so far. *)
Record Engine : Type := {
  inbox : list ReadResult;     (* what the next [ReadMessage] calls return *)
  incomingMsg : PluginMessage; (* plugin.go 211, shared by all iterations *)
  out : Outside;
  wrote : list Frame;          (* frames handed to [ws.WriteMessage] *)
  closes : nat;                (* calls of [ws.Close] *)
  tickerStopped : bool;
  doneClosed : bool;           (* [close(done)] has run *)
  main : MainState;
  exited : option Z            (* [os.Exit(code)] has been called *)
}.

(** What the scheduler lets happen next. *)
Inductive Sched : Type :=
| SReader                              (* the reader runs one iteration *)
| STick (t : string) (w : option GoError)
    (* [ticker.C] delivers [t]; the keepalive write returns [w] *)
| SInterrupt (w : option GoError)
    (* [interrupt] delivers; the close-frame write returns [w] *)
| SDone                                (* a receive from [done] succeeds *)
| STimeout.                            (* [time.After(time.Second)] fires *)

(** How one iteration of the reader's loop ends. *)
Inductive ReaderNext : Type :=
| Continue (m : PluginMessage) (o : Outside)
| Fatal (o : Outside).

(** How the reader goroutine ends up, run on its own over an inbox:
    blocked in [ReadMessage] once the inbox is used up, or the process
    exited with the rest of the inbox unread. *)
Inductive ReaderEnd : Type :=
| Blocked (m : PluginMessage)
| ProcessExit (unread : list ReadResult).

Section Environment.

(** [string(markdown.ToHTML([]byte(s), nil, nil))]. *)
Variable render : string -> string.
(** The JSON string literal [encoding/json] writes for a Go string. *)
Variable encodeString : string -> string.
(** Why [url.Parse] rejects a URL, if it does. *)
Variable urlError : string -> option GoError.
(** [client.Do], which may answer differently as requests accumulate:
    its first argument is what was sent before. *)
Variable transport : list Request -> Request -> Response + GoError.
(** [websocket.DefaultDialer.Dial(url, nil)]: its error, if any. *)
Variable dial : string -> option GoError.
(** [validator.New().Struct(config)]: its error, if any. *)
Variable validate : Config -> option GoError.
(** [json.Unmarshal] into a [Storage] and into a [plugin.Message]: the
    target after the call and the error returned. *)
Variable unmarshalStorage : string -> Storage -> Storage * option GoError.
Variable unmarshalMessage
  : string -> PluginMessage -> PluginMessage * option GoError.

Context {S : Type} {SH : StorageHandler S}.

(** [http.NewRequest(method, url, body)] for a valid method: it fails
    exactly when the URL does not parse. *)
Definition NewRequest (method url body : string) : Request + GoError :=
  match urlError url with
  | Some err => inr err
  | None =>
      inl {| Method := method; URL := url; Header := []; Body := body |}
  end.

(** [req.Header.Set(k, v)]. *)
Definition HeaderSet (k v : string) (req : Request) : Request :=
  {| Method := Method req; URL := URL req;
     Header := (k, v) :: filter (fun kv => negb (String.eqb (fst kv) k))
                                (Header req);
     Body := Body req |}.

(** plugin.go 53-85. *)
Definition SendPostToWebhook (webhookUrl : string)
  (message : PluginMessage) (o : Outside) : option GoError * Outside :=
  let webhookPost :=
    {| Username := Title message;
       Text := Message message;
       Html := render (Message message) |} in
  let body := Codec.marshalWebhookPost encodeString webhookPost in
  let o := logLine (LogSending webhookPost) o in
  match NewRequest "POST" webhookUrl body with
  | inr err => (Some err, o)
  | inl req =>
      let req := HeaderSet "Content-Type" "application/json" req in
      match transport (posted o) req with
      | inr err => (Some err, doRequest req o)
      | inl res => (None, doRequest req o)
      end
  end.

(** plugin.go 87-94. *)
Definition TestSocket (url : string) (h : Host) : option GoError * Host :=
  let h := recordDial url h in
  match dial url with
  | Some err => (Some err, hostLogLine (LogTestDialError err) h)
  | None => (None, h)
  end.

Definition setEnabled (b : bool) (c : WebhookerPlugin S)
  : WebhookerPlugin S :=
  {| enabled := b; storageHandler := storageHandler c; config := config c |}.

Definition setConfig (cfg : Config) (c : WebhookerPlugin S)
  : WebhookerPlugin S :=
  {| enabled := enabled c; storageHandler := storageHandler c;
     config := Some cfg |}.

Definition setHandler (s : S) (c : WebhookerPlugin S) : WebhookerPlugin S :=
  {| enabled := enabled c; storageHandler := Some s; config := config c |}.

(** plugin.go 109-133. *)
Definition ValidateAndSetConfig (conf : Config) (c : WebhookerPlugin S)
  (h : Host) : Outcome * WebhookerPlugin S * Host :=
  match validate conf with
  | Some err =>
      (Returns (Some ("Validation error: " ++ err)), c,
       hostLogLine (LogValidationError err) h)
  | None =>
      let c := setConfig conf c in
      let storage := newStorage in
      match storageHandler c with
      | None => (Panics, c, h)
      | Some s =>
          let (s, loaded) := Load s in
          let c := setHandler s c in
          match loaded with
          | inr err => (Returns (Some err), c, h)
          | inl storageBytes =>
              let (storage, _) := unmarshalStorage storageBytes storage in
              let c := setEnabled (WasEnabled storage) c in
              (Returns None, c, h)
          end
      end
  end.

(** plugin.go 161-172 and 179-190: what [Enable] and [Disable] do with
    the storage once the flag is set. *)
Definition persist (wasEnabled : bool) (c : WebhookerPlugin S) (h : Host)
  : Outcome * WebhookerPlugin S * Host :=
  match storageHandler c with
  | None => (Panics, c, h)
  | Some s =>
      let (s, loaded) := Load s in
      let c := setHandler s c in
      match loaded with
      | inr err => (Returns (Some err), c, h)
      | inl _ =>
          let storage := {| WasEnabled := wasEnabled |} in
          let storageBytes := Codec.marshalStorage storage in
          let (s, _) := Save storageBytes s in
          (Returns None, setHandler s c, h)
      end
  end.

(** plugin.go 135-173. *)
Definition Enable (c : WebhookerPlugin S) (h : Host)
  : Outcome * WebhookerPlugin S * Host :=
  match config c with
  | None => (Panics, c, h)
  | Some cfg =>
      if (String.length (HostServer cfg) <? 1)%nat then
        (Returns (Some "Please enter the correct web server"), c, h)
      else if (String.length (ClientToken cfg) <? 1)%nat then
        (Returns (Some "Please enter the client token"), c, h)
      else if (String.length (WebhookUrl cfg) <? 1)%nat then
        (Returns (Some "Please enter the correct webhook url"), c, h)
      else
        let serverUrl :=
          HostServer cfg ++ "/stream?token=" ++ ClientToken cfg in
        let (err, h) := TestSocket serverUrl h in
        match err with
        | Some _ =>
            (Returns (Some "Web server url or client_token is not valid"),
             c, h)
        | None =>
            let h := hostLogLine (LogWebsocketUrl serverUrl) h in
            let h := spawn serverUrl h in
            let c := setEnabled true c in
            let h := hostLogLine LogEnabled h in
            persist true c h
        end
  end.

(** plugin.go 175-191. *)
Definition Disable (c : WebhookerPlugin S) (h : Host)
  : Outcome * WebhookerPlugin S * Host :=
  let c := setEnabled false c in
  let h := hostLogLine LogDisabled h in
  persist false c h.

(** plugin.go 217-232: one iteration of the reader's loop on the result
    of its [ReadMessage].  Both [log.Fatal] calls end the process, so
    neither the [return] of line 221 nor the forward after a failed
    decode is reached. *)
Definition readerIteration (webhookUrl : string) (r : ReadResult)
  (m : PluginMessage) (o : Outside) : ReaderNext :=
  match r with
  | ReadErr err =>
      Fatal (logLine (LogFatal "Websocket read message error: " err) o)
  | ReadOk message =>
      let (m, derr) := unmarshalMessage message m in
      match derr with
      | Some err => Fatal (logLine (LogFatal "Json parsing error: " err) o)
      | None =>
          let (err, o) := SendPostToWebhook webhookUrl m o in
          match err with
          | Some err => Continue m (logLine (LogPostError err) o)
          | None => Continue m o
          end
      end
  end.

(** plugin.go 213-234: the reader goroutine on its own. *)
Fixpoint readerLoop (webhookUrl : string) (frames : list ReadResult)
  (m : PluginMessage) (o : Outside) : ReaderEnd * Outside :=
  match frames with
  | [] => (Blocked m, o)
  | r :: rest =>
      match readerIteration webhookUrl r m o with
      | Continue m' o' => readerLoop webhookUrl rest m' o'
      | Fatal o' => (ProcessExit rest, o')
      end
  end.

Definition setMain (st : MainState) (e : Engine) : Engine :=
  {| inbox := inbox e; incomingMsg := incomingMsg e; out := out e;
     wrote := wrote e; closes := closes e;
     tickerStopped := tickerStopped e; doneClosed := doneClosed e;
     main := st; exited := exited e |}.

Definition engineLog (l : LogEntry) (e : Engine) : Engine :=
  {| inbox := inbox e; incomingMsg := incomingMsg e;
     out := logLine l (out e);
     wrote := wrote e; closes := closes e;
     tickerStopped := tickerStopped e; doneClosed := doneClosed e;
     main := main e; exited := exited e |}.

(** [ws.WriteMessage]: the frame is handed to the connection. *)
Definition writeMessage (f : Frame) (e : Engine) : Engine :=
  {| inbox := inbox e; incomingMsg := incomingMsg e; out := out e;
     wrote := wrote e ++ [f]; closes := closes e;
     tickerStopped := tickerStopped e; doneClosed := doneClosed e;
     main := main e; exited := exited e |}.

(** [os.Exit(code)]: the process ends there; no deferred call runs. *)
Definition osExit (code : Z) (e : Engine) : Engine :=
  {| inbox := inbox e; incomingMsg := incomingMsg e; out := out e;
     wrote := wrote e; closes := closes e;
     tickerStopped := tickerStopped e; doneClosed := doneClosed e;
     main := main e; exited := Some code |}.

(** A [return] of [StartListener] once connected: the deferred calls
    run, [ticker.Stop()] (237) and then [ws.Close()] (207). *)
Definition returnFromListener (err : option GoError) (e : Engine) : Engine :=
  {| inbox := inbox e; incomingMsg := incomingMsg e; out := out e;
     wrote := wrote e; closes := Datatypes.S (closes e);
     tickerStopped := true; doneClosed := doneClosed e;
     main := Returned err; exited := exited e |}.

(** The reader goroutine runs one iteration, if a result of
    [ReadMessage] is there for it; it goes on after [StartListener]
    has returned, since only the end of the process stops it. *)
Definition readerStep (webhookUrl : string) (e : Engine) : Engine :=
  match inbox e with
  | [] => e
  | r :: rest =>
      match readerIteration webhookUrl r (incomingMsg e) (out e) with
      | Continue m o =>
          {| inbox := rest; incomingMsg := m; out := o;
             wrote := wrote e; closes := closes e;
             tickerStopped := tickerStopped e; doneClosed := doneClosed e;
             main := main e; exited := exited e |}
      | Fatal o =>
          {| inbox := rest; incomingMsg := incomingMsg e; out := o;
             wrote := wrote e; closes := closes e;
             tickerStopped := tickerStopped e; doneClosed := doneClosed e;
             main := main e; exited := Some 1%Z |}
      end
  end.

(** plugin.go 239-267: what the control loop does with one event; an
    event its current [select] does not wait for changes nothing. *)
Definition controlStep (ev : Sched) (e : Engine) : Engine :=
  match main e, ev with
  | Connected, SDone =>
      if doneClosed e then returnFromListener None e else e
  | Connected, STick t w =>
      let e := writeMessage (TextMessage t) e in
      match w with
      | Some err =>
          returnFromListener (Some err) (engineLog (LogWriteError err) e)
      | None => e
      end
  | Connected, SInterrupt w =>
      let e := engineLog LogInterrupt e in
      let e := writeMessage (CloseMessage CloseNormalClosure EmptyString) e in
      match w with
      | Some err =>
          returnFromListener (Some err) (engineLog (LogCloseError err) e)
      | None => setMain Closing e
      end
  | Closing, SDone =>
      if doneClosed e then returnFromListener None e else e
  | Closing, STimeout => returnFromListener None e
  | _, _ => e
  end.

(** One scheduling step of a run; nothing happens once the process has
    exited. *)
Definition step (webhookUrl : string) (ev : Sched) (e : Engine) : Engine :=
  match exited e with
  | Some _ => e
  | None =>
      match ev with
      | SReader => readerStep webhookUrl e
      | _ => controlStep ev e
      end
  end.

Fixpoint run (webhookUrl : string) (sched : list Sched) (e : Engine)
  : Engine :=
  match sched with
  | [] => e
  | ev :: rest => run webhookUrl rest (step webhookUrl ev e)
  end.

(** The state in which [StartListener] is entered. *)
Definition idle (frames : list ReadResult) : Engine :=
  {| inbox := frames; incomingMsg := zeroMessage;
     out := {| posted := []; logged := [] |};
     wrote := []; closes := 0; tickerStopped := false;
     doneClosed := false; main := Connecting; exited := None |}.

(** plugin.go 193-268, on a connection whose [ReadMessage] calls return
    [frames], under the schedule [sched].  A failed [Dial] is logged with
    [log.Fatal], which ends the process before line 202.  [webhookUrl] is
    [c.config.WebhookUrl], taken not to be replaced while the run lasts. *)
Definition StartListener (serverUrl webhookUrl : string)
  (frames : list ReadResult) (sched : list Sched) : Engine :=
  match dial serverUrl with
  | Some err => osExit 1 (engineLog (LogFatal "Websocket error: " err)
                                    (idle frames))
  | None =>
      run webhookUrl sched
        (setMain Connected (engineLog (LogConnected serverUrl) (idle frames)))
  end.

End Environment.

(* ------------------------------------------------------------------ *)
(** ** Vocabulary of the statements *)

(** The forward operations a log records, in order: each call of
    [SendPostToWebhook] logs the payload it was asked to send. *)
Definition forwards (l : list LogEntry) : list WebhookPost :=
  flat_map (fun x => match x with LogSending p => [p] | _ => [] end) l.

(** The errors of failed forwards a log records (plugin.go 231). *)
Definition postErrors (l : list LogEntry) : list GoError :=
  flat_map (fun x => match x with LogPostError e => [e] | _ => [] end) l.

(** The payload of an event: username = title, text = body,
    html = render(body). *)
Definition payloadOf (render : string -> string) (m : PluginMessage)
  : WebhookPost :=
  {| Username := Title m; Text := Message m; Html := render (Message m) |}.

(** The POST the interface description asks for, for title [t] and body
    [b]: the JSON object with members username, text and html, and the
    content type header. *)
Definition webhookRequest (render encodeString : string -> string)
  (webhookUrl t b : string) : Request :=
  {| Method := "POST";
     URL := webhookUrl;
     Header := [("Content-Type", "application/json")];
     Body := "{" ++ Json.quoted "username" ++ ":" ++ encodeString t
                 ++ "," ++ Json.quoted "text" ++ ":" ++ encodeString b
                 ++ "," ++ Json.quoted "html" ++ ":"
                 ++ encodeString (render b) ++ "}" |}.

(** [Decodes um m fs ms]: starting from the message [m], every frame of
    [fs] decodes without error, and [ms] lists the message after each. *)
Inductive Decodes
  (um : string -> PluginMessage -> PluginMessage * option GoError)
  : PluginMessage -> list string -> list PluginMessage -> Prop :=
| DecodesNil : forall m, Decodes um m [] []
| DecodesCons : forall m f m' fs ms,
    um f m = (m', None) ->
    Decodes um m' fs ms ->
    Decodes um m (f :: fs) (m' :: ms).

(** What the reader goroutine of an engine has read, posted and
    forwarded, and whether the process has exited. *)
Definition readerView (e : Engine)
  : list ReadResult * PluginMessage * list Request * list WebhookPost
    * option Z :=
  (inbox e, incomingMsg e, posted (out e), forwards (logged (out e)),
   exited e).

(** The scheduling steps that are the reader's. *)
Definition isReaderStep (ev : Sched) : bool :=
  match ev with SReader => true | _ => false end.

(** What holds of a connected run at every point: [done] is never
    closed, and [ws.Close] has run once if [StartListener] has returned
    and not at all if it has not. *)
Definition connectedInv (e : Engine) : Prop :=
  doneClosed e = false
  /\ match main e with
     | Connecting => False
     | Connected | Closing => closes e = 0%nat
     | Returned _ => closes e = 1%nat
     end.



(** The blob of a persisted state, as the interface description has it. *)
Definition persistedBlob (wasEnabled : bool) : string :=
  "{" ++ Json.quoted "wasEnabled" ++ ":"
      ++ (if wasEnabled then "true" else "false") ++ "}".

(* ------------------------------------------------------------------ *)
(** ** Concrete collaborators, for running the model *)

(** A storage handler that keeps the blob in memory and fails a call
    when told to. *)
Record MemStore : Type := {
  blob : string;
  loadErr : option GoError;
  saveErr : option GoError
}.

#[export] Instance MemStoreHandler : StorageHandler MemStore := {
  Load s :=
    (s, match loadErr s with
        | Some err => inr err
        | None => inl (blob s)
        end);
  Save b s :=
    match saveErr s with
    | Some err => (s, Some err)
    | None =>
        ({| blob := b; loadErr := loadErr s; saveErr := saveErr s |}, None)
    end
}.

(** [validator.Struct] on a [Config]: no field has a [validate] tag, so
    there is nothing to check. *)
Definition validateStruct (_ : Config) : option GoError := None.

(** The HTML of one paragraph of plain text. *)
Definition renderParagraph (s : string) : string :=
  "<p>" ++ s ++ "</p>" ++ String "010" EmptyString.

Definition hexDigit (n : nat) : ascii :=
  if (n <? 10)%nat then ascii_of_nat (48 + n) else ascii_of_nat (87 + n).

Definition escapeByte (c : ascii) : string :=
  let n := nat_of_ascii c in
  if (n =? 34)%nat then String "\" (String Json.dq EmptyString)
  else if (n =? 92)%nat then "\\"
  else if (n =? 10)%nat then "\n"
  else if (n =? 13)%nat then "\r"
  else if (n =? 9)%nat then "\t"
  else if (n <? 32)%nat || (n =? 60)%nat || (n =? 62)%nat || (n =? 38)%nat
  then "\u00" ++ String (hexDigit (n / 16))
                    (String (hexDigit (n mod 16)) EmptyString)
  else String c EmptyString.

(** A JSON string literal with the escapes of [json.Marshal]: quote,
    backslash, control characters, and [<], [>], [&]. *)
Definition encodeStringGo (s : string) : string :=
  Json.quoted (String.concat EmptyString (map escapeByte (list_ascii_of_string s))).

Definition hasControlByte (s : string) : bool :=
  existsb (fun c => let n := nat_of_ascii c in (n <? 32)%nat || (n =? 127)%nat)
          (list_ascii_of_string s).

(** Two of the rejections of [url.Parse], those it decides before it
    looks at any component: a control byte, and a colon with no scheme in
    front of it. *)
Definition urlErrorGo (url : string) : option GoError :=
  if hasControlByte url
  then Some "net/url: invalid control character in URL"
  else
    match Json.eat ":" url with
    | Some _ =>
        Some ("parse " ++ Json.quoted url ++ ": missing protocol scheme")
    | None => None
    end.

(** A webhook that answers every request with the given status. *)
Definition transportStatus (code : Z) (_ : list Request) (_ : Request)
  : Response + GoError :=
  inl {| StatusCode := code; ResponseBody := EmptyString |}.

(** A webhook that cannot be reached. *)
Definition transportDown (_ : list Request) (_ : Request)
  : Response + GoError :=
  inr "dial tcp: connection refused".

(** A webhook that is unreachable for the first request only. *)
Definition transportFlaky (sent : list Request) (_ : Request)
  : Response + GoError :=
  match sent with
  | [] => inr "dial tcp: connection refused"
  | _ => inl {| StatusCode := 200%Z; ResponseBody := EmptyString |}
  end.

(** A stream server that accepts every connection. *)
Definition dialOk (_ : string) : option GoError := None.

(** A stream frame with a title and a message. *)
Definition frame (t b : string) : string :=
  "{" ++ Json.quoted "title" ++ ":" ++ Json.quoted t
      ++ "," ++ Json.quoted "message" ++ ":" ++ Json.quoted b ++ "}".

Definition sampleConfig : Config :=
  {| WebhookUrl := "http://example.com/hook";
     HostServer := "ws://localhost:8080";
     ClientToken := "abc" |}.

Definition emptyHost : Host :=
  {| spawned := []; dialled := []; hostLog := [] |}.

Definition emptyOutside : Outside := {| posted := []; logged := [] |}.

Definition memStore (b : string) : MemStore :=
  {| blob := b; loadErr := None; saveErr := None |}.

(** A plugin as the host leaves it after [SetStorageHandler] and a
    configuration. *)
Definition pluginWith (s : MemStore) (cfg : Config)
  : WebhookerPlugin MemStore :=
  {| enabled := false; storageHandler := Some s; config := Some cfg |}.

(* ------------------------------------------------------------------ *)
(** ** The rest of plugin.go, and more vocabulary *)

(** [plugin.Info] of the gotify plugin API, as far as plugin.go fills it. *)
Record Info : Type := {
  ModulePath : string;
  Version : string;
  Author : string;
  Website : string;
  Description : string;
  License : string;
  Name : string
}.

(** plugin.go 25-35. *)
Definition GetGotifyPluginInfo : Info :=
  {| ModulePath := "github.com/gotify/plugin-template";
     Version := "1.0.0";
     Author := "KiMi";
     Website := EmptyString;
     Description := "Plugin for forwarding messages to webhook";
     License := "MIT";
     Name := "WebhookerPlugin" |}.

(** The URL [Enable] probes and hands to the engine (plugin.go 146). *)
Definition streamUrl (cfg : Config) : string :=
  HostServer cfg ++ "/stream?token=" ++ ClientToken cfg.

(** The three fields [Enable] asks for are there. *)
Definition complete (cfg : Config) : Prop :=
  HostServer cfg <> EmptyString
  /\ ClientToken cfg <> EmptyString
  /\ WebhookUrl cfg <> EmptyString.

(** What the host does with a plugin at start: a new instance, the
    storage handler, the configuration. *)
Definition startPlugin (conf : Config) (s : MemStore)
  : Outcome * WebhookerPlugin MemStore * Host :=
  ValidateAndSetConfig validateStruct Codec.unmarshalStorage conf
    (SetStorageHandler s (NewGotifyPluginInstance MemStore)) emptyHost.

(** The flag a plugin started on the store of [c] comes up with. *)
Definition flagAfterRestart (conf : Config) (c : WebhookerPlugin MemStore)
  : option bool :=
  match storageHandler c with
  | Some s => Some (enabled (snd (fst (startPlugin conf s))))
  | None => None
  end.

(** The close frame of plugin.go 254. *)
Definition closeFrame : Frame := CloseMessage CloseNormalClosure EmptyString.

(** Scheduling steps that cannot make the control loop leave its state:
    reader steps, keepalives that are written, and events that do not
    occur in that state. *)
Definition quiet (ev : Sched) : bool :=
  match ev with
  | SReader | STick _ None | SDone | STimeout => true
  | _ => false
  end.

(** Steps under which a control loop that waits out the grace period
    stays there: everything but the timer. *)
Definition notTimeout (ev : Sched) : bool :=
  match ev with
  | STimeout => false
  | _ => true
  end.

(** A store whose [Load] fails. *)
Definition unreadableStore : MemStore :=
  {| blob := persistedBlob true; loadErr := Some "no such file";
     saveErr := None |}.

(** What a connected run has written upstream at every point: keepalives
    and, once an interrupt has been handled, the close frame after
    them. *)
Definition writesInv (e : Engine) : Prop :=
  doneClosed e = false
  /\ exists ts : list string,
       match main e with
       | Connecting => False
       | Connected => wrote e = map TextMessage ts
       | Closing | Returned None => wrote e = (map TextMessage ts ++ [closeFrame])%list
       | Returned (Some _) =>
           wrote e = map TextMessage ts
           \/ wrote e = (map TextMessage ts ++ [closeFrame])%list
       end.

(** The time texts of the ticks of a schedule, in order. *)
Definition ticks (sched : list Sched) : list string :=
  flat_map (fun ev => match ev with STick t _ => [t] | _ => [] end) sched.

(* ------------------------------------------------------------------ *)
(** * Properties *)

(** From here on [++] joins lists unless marked otherwise. *)
Open Scope list_scope.

(** ** The JSON reader consumes its input and has fuel enough *)

Module JsonFacts.
Import Json.

Lemma skipws_length (s : string) : String.length (skipws s) <= String.length s.
Proof.
  induction s as [|c s IH]; cbn; [lia|].
  destruct (isSpace c); cbn; lia.
Qed.

Lemma eat_length (c : ascii) (s r : string) :
  eat c s = Some r -> String.length s = S (String.length r).
Proof.
  destruct s as [|d s]; cbn; [discriminate|].
  destruct (Ascii.eqb d c); [|discriminate].
  intros [= ->]; reflexivity.
Qed.

Lemma digits_length (s ds r : string) :
  digits s = (ds, r) -> String.length r <= String.length s.
Proof.
  revert ds r; induction s as [|c s IH]; cbn; intros ds r.
  - intros [= <- <-]; cbn; lia.
  - destruct (isDigit c).
    + destruct (digits s) as [ds' r'] eqn:E.
      intros [= <- <-].
      specialize (IH _ _ eq_refl); lia.
    + intros [= <- <-]; cbn; lia.
Qed.

Lemma pint_length (s ip r : string) :
  pint s = Some (ip, r) -> String.length r < String.length s.
Proof.
  destruct s as [|c s]; cbn; [discriminate|].
  destruct (Ascii.eqb c "0").
  - intros [= <- <-]; lia.
  - destruct (isDigit c); [|discriminate].
    destruct (digits s) as [ds r'] eqn:E.
    intros [= <- <-].
    apply digits_length in E; lia.
Qed.

Lemma pfrac_length (s fp r : string) :
  pfrac s = Some (fp, r) -> String.length r <= String.length s.
Proof.
  unfold pfrac.
  destruct (eat "." s) as [r0|] eqn:E.
  - apply eat_length in E.
    destruct (digits r0) as [ds r'] eqn:D.
    destruct (isEmpty ds); [discriminate|].
    intros [= <- <-].
    apply digits_length in D; lia.
  - intros [= <- <-]; lia.
Qed.

Lemma psign_length (s sg r : string) :
  psign s = (sg, r) -> String.length r <= String.length s.
Proof.
  unfold psign.
  destruct (eat "+" s) as [r0|] eqn:E.
  - apply eat_length in E; intros [= <- <-]; lia.
  - destruct (eat "-" s) as [r0|] eqn:E'.
    + apply eat_length in E'; intros [= <- <-]; lia.
    + intros [= <- <-]; lia.
Qed.

Lemma pexp_length (s ep r : string) :
  pexp s = Some (ep, r) -> String.length r <= String.length s.
Proof.
  destruct s as [|c s]; cbn.
  - intros [= <- <-]; cbn; lia.
  - destruct (Ascii.eqb c "e" || Ascii.eqb c "E").
    + destruct (psign s) as [sg r1] eqn:P.
      destruct (digits r1) as [ds r2] eqn:D.
      destruct (isEmpty ds); [discriminate|].
      intros [= <- <-].
      apply psign_length in P.
      apply digits_length in D; lia.
    + intros [= <- <-]; cbn; lia.
Qed.

Lemma pnumber_length (s raw r : string) :
  pnumber s = Some (raw, r) -> String.length r < String.length s.
Proof.
  unfold pnumber.
  destruct (eat "-" s) as [r0|] eqn:E.
  - apply eat_length in E.
    destruct (pint r0) as [[ip s2]|] eqn:I; [|discriminate].
    destruct (pfrac s2) as [[fp s3]|] eqn:F; [|discriminate].
    destruct (pexp s3) as [[ep s4]|] eqn:X; [|discriminate].
    intros [= <- <-].
    apply pint_length in I; apply pfrac_length in F; apply pexp_length in X.
    lia.
  - destruct (pint s) as [[ip s2]|] eqn:I; [|discriminate].
    destruct (pfrac s2) as [[fp s3]|] eqn:F; [|discriminate].
    destruct (pexp s3) as [[ep s4]|] eqn:X; [|discriminate].
    intros [= <- <-].
    apply pint_length in I; apply pfrac_length in F; apply pexp_length in X.
    lia.
Qed.

Lemma hex4_length (s r : string) (cp : N) :
  hex4 s = Some (cp, r) -> String.length s = 4 + String.length r.
Proof.
  destruct s as [|a [|b [|c [|d s]]]]; cbn; try discriminate.
  destruct (hexval a), (hexval b), (hexval c), (hexval d); try discriminate.
  intros [= <- <-]; reflexivity.
Qed.

Lemma lowSurrogate_length (s r : string) (lo : N) :
  lowSurrogate s = Some (lo, r) -> String.length s = 6 + String.length r.
Proof.
  unfold lowSurrogate.
  destruct (eat "\" s) as [r1|] eqn:E1; [|discriminate].
  destruct (eat "u" r1) as [r2|] eqn:E2; [|discriminate].
  destruct (hex4 r2) as [[l r3]|] eqn:H; [|discriminate].
  destruct (isLow l); [|discriminate].
  intros [= <- <-].
  apply eat_length in E1; apply eat_length in E2; apply hex4_length in H.
  lia.
Qed.

Lemma prepend_some (p t r : string) (x : option (string * string)) :
  prepend p x = Some (t, r) -> exists t', x = Some (t', r).
Proof.
  destruct x as [[t' r']|]; cbn; [|discriminate].
  intros H; injection H as _ <-.
  eauto.
Qed.

Lemma utf8Seq_length (s b r : string) :
  utf8Seq s = Some (b, r) -> String.length r < String.length s.
Proof.
  unfold utf8Seq.
  destruct s as [|b0 [|b1 [|b2 [|b3 r3]]]]; try discriminate;
    repeat match goal with
      | |- context [if ?x then _ else _] => destruct x
      end;
    try discriminate; intros [= _ <-]; cbn [String.length]; lia.
Qed.

Lemma pstr_length (n : nat) :
  forall s t r, pstr n s = Some (t, r) -> String.length r < String.length s.
Proof.
  induction n as [|n IH]; intros s t r; cbn [pstr]; [discriminate|].
  destruct s as [|c s]; [discriminate|].
  destruct (Ascii.eqb c dq); [intros [= <- <-]; cbn [String.length] in *; lia|].
  destruct (nat_of_ascii c <? 32)%nat; [discriminate|].
  destruct (Ascii.eqb c "\").
  - destruct s as [|e s1]; [discriminate|].
    destruct (simpleEscape e).
    + intros H; apply prepend_some in H as [t' H].
      apply IH in H; cbn [String.length] in *; lia.
    + destruct (Ascii.eqb e "u"); [|discriminate].
      destruct (hex4 s1) as [[cp r2]|] eqn:H4; [|discriminate].
      apply hex4_length in H4.
      destruct (isHigh cp).
      * destruct (lowSurrogate r2) as [[lo r3]|] eqn:L.
        -- apply lowSurrogate_length in L.
           intros H; apply prepend_some in H as [t' H].
           apply IH in H; cbn [String.length] in *; lia.
        -- intros H; apply prepend_some in H as [t' H].
           apply IH in H; cbn [String.length] in *; lia.
      * destruct (isSurrogate cp);
          intros H; apply prepend_some in H as [t' H];
          apply IH in H; cbn [String.length] in *; lia.
  - destruct (nat_of_ascii c <? 128)%nat.
    + intros H; apply prepend_some in H as [t' H].
      apply IH in H; cbn [String.length] in *; lia.
    + destruct (utf8Seq (String c s)) as [[b r']|] eqn:U.
      * apply utf8Seq_length in U.
        intros H; apply prepend_some in H as [t' H].
        apply IH in H; cbn [String.length] in *; lia.
      * intros H; apply prepend_some in H as [t' H].
        apply IH in H; cbn [String.length] in *; lia.
Qed.

(** More fuel than the length of the text changes nothing for [pstr]. *)
Lemma pstr_fuel (n : nat) :
  forall m s, String.length s <= n -> String.length s <= m ->
              pstr n s = pstr m s.
Proof.
  induction n as [|n IH]; intros m s Hn Hm.
  - destruct s; [|cbn in Hn; lia].
    destruct m; reflexivity.
  - destruct m as [|m].
    + destruct s; [reflexivity|cbn in Hm; lia].
    + cbn [pstr].
      destruct s as [|c s]; [reflexivity|].
      cbn [String.length] in Hn, Hm.
      destruct (Ascii.eqb c dq); [reflexivity|].
      destruct (nat_of_ascii c <? 32)%nat; [reflexivity|].
      destruct (Ascii.eqb c "\").
      * destruct s as [|e s1]; [reflexivity|].
        cbn [String.length] in Hn, Hm.
        destruct (simpleEscape e).
        -- rewrite (IH m s1); [reflexivity|lia|lia].
        -- destruct (Ascii.eqb e "u"); [|reflexivity].
           destruct (hex4 s1) as [[cp r2]|] eqn:H4; [|reflexivity].
           apply hex4_length in H4.
           destruct (isHigh cp).
           ++ destruct (lowSurrogate r2) as [[lo r3]|] eqn:L.
              ** apply lowSurrogate_length in L.
                 rewrite (IH m r3); [reflexivity|lia|lia].
              ** rewrite (IH m r2); [reflexivity|lia|lia].
           ++ destruct (isSurrogate cp);
                rewrite (IH m r2); try reflexivity; lia.
      * rewrite (IH m s) by lia.
        destruct (utf8Seq (String c s)) as [[b r']|] eqn:U; [|reflexivity].
        apply utf8Seq_length in U.
        cbn [String.length] in U.
        rewrite (IH m r') by lia.
        reflexivity.
Qed.

Lemma dropPrefix_length (p : string) :
  forall s r, dropPrefix p s = Some r ->
              String.length s = String.length p + String.length r.
Proof.
  induction p as [|a p IH]; intros s r; cbn.
  - intros [= ->]; reflexivity.
  - destruct s as [|b s]; [discriminate|].
    destruct (Ascii.eqb a b); [|discriminate].
    intros H; apply IH in H; cbn; lia.
Qed.

Lemma literal_length (lit : string) (v v' : value) (s r : string) :
  literal lit v s = Some (v', r) ->
  String.length s = String.length lit + String.length r.
Proof.
  unfold literal.
  destruct (dropPrefix lit s) as [r'|] eqn:E; [|discriminate].
  intros [= _ <-].
  apply dropPrefix_length, E.
Qed.

(** Shorthands for what the lemmas above say of a call in a hypothesis. *)
Ltac lengths :=
  repeat match goal with
    | H : eat _ _ = Some _ |- _ => apply eat_length in H
    | H : pstr _ _ = Some _ |- _ => apply pstr_length in H
    | H : pnumber _ = Some _ |- _ => apply pnumber_length in H
    | H : literal _ _ _ = Some _ |- _ => apply literal_length in H
    end.

Ltac skips :=
  repeat match goal with
    | |- context [skipws ?s] =>
        lazymatch goal with
        | _ : String.length (skipws s) <= String.length s |- _ => fail
        | _ => pose proof (skipws_length s)
        end
    | _ : context [skipws ?s] |- _ =>
        lazymatch goal with
        | _ : String.length (skipws s) <= String.length s |- _ => fail
        | _ => pose proof (skipws_length s)
        end
    end.

(** Each parser consumes at least one character. *)
Lemma descent_length (n : nat) :
  (forall d s v r, pvalue n d s = Some (v, r) ->
                   String.length r < String.length s)
  /\ (forall d s vs r, pelems n d s = Some (vs, r) ->
                       String.length r < String.length s)
  /\ (forall d s ms r, pmembers n d s = Some (ms, r) ->
                       String.length r < String.length s).
Proof.
  induction n as [|n [IHv [IHe IHm]]].
  - repeat split; intros; discriminate.
  - split; [|split].
    + intros d s v r.
      cbn [pvalue].
      destruct s as [|c s]; [discriminate|].
      destruct (Ascii.eqb c "{").
      { destruct (d <? maxNestingDepth)%N; [|discriminate].
        destruct (eat "}" (skipws s)) as [r'|] eqn:E.
        - intros [= _ <-]; lengths; skips; cbn [String.length]; lia.
        - destruct (pmembers n (d + 1) (skipws s)) as [[ms r']|] eqn:M;
            [|discriminate].
          intros [= _ <-]; apply IHm in M; skips; cbn [String.length]; lia. }
      destruct (Ascii.eqb c "[").
      { destruct (d <? maxNestingDepth)%N; [|discriminate].
        destruct (eat "]" (skipws s)) as [r'|] eqn:E.
        - intros [= _ <-]; lengths; skips; cbn [String.length]; lia.
        - destruct (pelems n (d + 1) (skipws s)) as [[vs r']|] eqn:M;
            [|discriminate].
          intros [= _ <-]; apply IHe in M; skips; cbn [String.length]; lia. }
      destruct (Ascii.eqb c dq).
      { destruct (pstr (String.length s) s) as [[t r']|] eqn:P; [|discriminate].
        intros [= _ <-]; lengths; cbn [String.length]; lia. }
      destruct (Ascii.eqb c "t");
        [intros H; lengths; cbn [String.length] in *; lia|].
      destruct (Ascii.eqb c "f");
        [intros H; lengths; cbn [String.length] in *; lia|].
      destruct (Ascii.eqb c "n");
        [intros H; lengths; cbn [String.length] in *; lia|].
      destruct (pnumber (String c s)) as [[raw r']|] eqn:P; [|discriminate].
      intros [= _ <-]; lengths; lia.
    + intros d s vs r.
      cbn [pelems].
      destruct (pvalue n d s) as [[v r1]|] eqn:V; [|discriminate].
      apply IHv in V.
      destruct (eat "," (skipws r1)) as [r2|] eqn:E.
      * destruct (pelems n d (skipws r2)) as [[vs' r3]|] eqn:M;
          [|discriminate].
        intros [= _ <-]; apply IHe in M; lengths; skips; lia.
      * destruct (eat "]" (skipws r1)) as [r2|] eqn:E'; [|discriminate].
        intros [= _ <-]; lengths; skips; lia.
    + intros d s ms r.
      cbn [pmembers].
      destruct (eat dq s) as [r0|] eqn:E0; [|discriminate].
      destruct (pstr (String.length r0) r0) as [[k r1]|] eqn:P; [|discriminate].
      destruct (eat ":" (skipws r1)) as [r2|] eqn:E1; [|discriminate].
      destruct (pvalue n d (skipws r2)) as [[v r3]|] eqn:V; [|discriminate].
      apply IHv in V.
      destruct (eat "," (skipws r3)) as [r4|] eqn:E2.
      * destruct (pmembers n d (skipws r4)) as [[ms' r5]|] eqn:M;
          [|discriminate].
        intros [= _ <-]; apply IHm in M; lengths; skips; lia.
      * destruct (eat "}" (skipws r3)) as [r4|] eqn:E3; [|discriminate].
        intros [= _ <-]; lengths; skips; lia.
Qed.

(** Past twice the length of the text, more fuel changes nothing. *)
Lemma descent_fuel (n : nat) :
  (forall d s m, 2 * String.length s + 1 <= n -> n <= m ->
                 pvalue n d s = pvalue m d s)
  /\ (forall d s m, 2 * String.length s + 2 <= n -> n <= m ->
                    pelems n d s = pelems m d s)
  /\ (forall d s m, 2 * String.length s + 1 <= n -> n <= m ->
                    pmembers n d s = pmembers m d s).
Proof.
  induction n as [|n [IHv [IHe IHm]]].
  - repeat split; intros; lia.
  - split; [|split].
    + intros d s [|m] Hn Hm; [lia|].
      cbn [pvalue].
      destruct s as [|c s]; [reflexivity|].
      cbn [String.length] in Hn.
      pose proof (skipws_length s).
      rewrite (IHm (d + 1)%N (skipws s) m) by lia.
      rewrite (IHe (d + 1)%N (skipws s) m) by lia.
      reflexivity.
    + intros d s [|m] Hn Hm; [lia|].
      cbn [pelems].
      rewrite (IHv d s m) by lia.
      destruct (pvalue m d s) as [[v r1]|] eqn:V; [|reflexivity].
      apply (proj1 (descent_length m)) in V.
      destruct (eat "," (skipws r1)) as [r2|] eqn:E; [|reflexivity].
      lengths; skips.
      rewrite (IHe d (skipws r2) m) by lia.
      reflexivity.
    + intros d s [|m] Hn Hm; [lia|].
      cbn [pmembers].
      destruct (eat dq s) as [r0|] eqn:E0; [|reflexivity].
      destruct (pstr (String.length r0) r0) as [[k r1]|] eqn:P; [|reflexivity].
      destruct (eat ":" (skipws r1)) as [r2|] eqn:E1; [|reflexivity].
      lengths; skips.
      rewrite (IHv d (skipws r2) m) by lia.
      destruct (pvalue m d (skipws r2)) as [[v r3]|] eqn:V; [|reflexivity].
      apply (proj1 (descent_length m)) in V.
      destruct (eat "," (skipws r3)) as [r4|] eqn:E2; [|reflexivity].
      lengths; skips.
      rewrite (IHm d (skipws r4) m) by lia.
      reflexivity.
Qed.

(** The fuel of [parse] is enough: with any larger fuel the descent
    gives the same result, so a [None] of [parse] is a text that is not
    JSON and never a descent cut short. *)
Theorem parse_fuel (s : string) (n : nat) :
  fuel s <= n -> pvalue n 0 (skipws s) = pvalue (fuel s) 0 (skipws s).
Proof.
  intros Hn.
  symmetry.
  apply (proj1 (descent_fuel (fuel s))); [|exact Hn].
  pose proof (skipws_length s).
  unfold fuel; lia.
Qed.

End JsonFacts.
(** ** The forwarder *)

Section ForwarderFacts.

Variable render : string -> string.
Variable encodeString : string -> string.
Variable urlError : string -> option GoError.
Variable transport : list Request -> Request -> Response + GoError.

Let send := SendPostToWebhook render encodeString urlError transport.

(** The three ways through the function. *)
Lemma send_unfold (url : string) (m : PluginMessage) (o : Outside) :
  send url m o
  = let o1 := logLine (LogSending (payloadOf render m)) o in
    let req :=
      webhookRequest render encodeString url (Title m) (Message m) in
    match urlError url with
    | Some err => (Some err, o1)
    | None =>
        match transport (posted o) req with
        | inr err => (Some err, doRequest req o1)
        | inl _ => (None, doRequest req o1)
        end
    end.
Proof.
  unfold send, SendPostToWebhook, NewRequest.
  destruct (urlError url); reflexivity.
Qed.

(** Every call logs the payload it derives from the event, and nothing
    else. *)
Lemma send_forwards (url : string) (m : PluginMessage) (o : Outside) :
  forwards (logged (snd (send url m o)))
  = forwards (logged o) ++ [payloadOf render m]
  /\ postErrors (logged (snd (send url m o))) = postErrors (logged o).
Proof.
  unfold send, SendPostToWebhook, NewRequest, forwards, postErrors.
  destruct (urlError url); [|destruct (transport _ _)]; cbn;
    rewrite !flat_map_app; cbn; rewrite ?app_nil_r; auto.
Qed.

(** The requests a call hands to the client: one, as the interface
    description writes it, when the URL parses, none otherwise. *)
Lemma send_posted (url : string) (m : PluginMessage) (o : Outside) :
  posted (snd (send url m o))
  = match urlError url with
    | None =>
        posted o
        ++ [webhookRequest render encodeString url (Title m) (Message m)]
    | Some _ => posted o
    end.
Proof.
  unfold send, SendPostToWebhook, NewRequest.
  destruct (urlError url); [reflexivity|].
  destruct (transport _ _); reflexivity.
Qed.

(** C4, as amended: for an event with title [t] and body [b], when the
    configured webhook URL is one [http.NewRequest] accepts, the
    forwarder hands exactly one request to the HTTP client, a POST to
    that URL with the header Content-Type: application/json and the
    body [{username: t, text: b, html: render b}]; when the URL is
    rejected it hands over none and returns the error. *)
Theorem forward_posts_payload_once
  (webhookUrl t b : string) (p : Z)
  (x : option (list (string * Json.value))) (o : Outside) :
  let event := {| Message := b; Title := t; Priority := p; Extras := x |} in
  match urlError webhookUrl with
  | None =>
      posted (snd (send webhookUrl event o))
      = posted o ++ [webhookRequest render encodeString webhookUrl t b]
  | Some err =>
      posted (snd (send webhookUrl event o)) = posted o
      /\ fst (send webhookUrl event o) = Some err
  end.
Proof.
  intros event.
  pose proof (send_posted webhookUrl event o) as Hp.
  destruct (urlError webhookUrl) eqn:Hu; [split|]; try exact Hp.
  unfold send, SendPostToWebhook, NewRequest.
  rewrite Hu.
  reflexivity.
Qed.

(** C9: whatever response the webhook gives, whatever its status code
    and body, the forward returns nil; and when it returns an error,
    that error is the one of building the request or the one of the
    transport. *)
Theorem forward_ignores_response
  (webhookUrl : string) (m : PluginMessage) (o : Outside) :
  let req :=
    webhookRequest render encodeString webhookUrl (Title m) (Message m) in
  (forall (code : Z) (body : string),
      urlError webhookUrl = None ->
      transport (posted o) req
      = inl {| StatusCode := code; ResponseBody := body |} ->
      fst (send webhookUrl m o) = None)
  /\ (forall err : GoError,
         fst (send webhookUrl m o) = Some err ->
         urlError webhookUrl = Some err
         \/ (urlError webhookUrl = None
             /\ transport (posted o) req = inr err)).
Proof.
  intros req; subst req.
  rewrite send_unfold.
  cbv zeta.
  split.
  - intros code body Hu Ht.
    rewrite Hu, Ht.
    reflexivity.
  - intros err.
    destruct (urlError webhookUrl) as [e|].
    + intros [= ->].
      left; reflexivity.
    + destruct (transport _ _) as [res|e]; cbn.
      * discriminate.
      * intros [= ->].
        right; split; reflexivity.
Qed.

End ForwarderFacts.

(** C4: the webhook URL [":"] passes the checks of [Enable] but is not a
    URL; forwarding an event under it hands no request to the HTTP
    client. *)
Lemma forward_without_post :
  let event :=
    {| Message := "M"; Title := "T"; Priority := 0%Z; Extras := None |} in
  let r :=
    SendPostToWebhook renderParagraph encodeStringGo urlErrorGo
      (transportStatus 200) ":" event emptyOutside in
  (String.length ":" <? 1)%nat = false
  /\ posted (snd r) = []
  /\ fst r <> None.
Proof.
  cbv zeta.
  split; [reflexivity|].
  split; [vm_compute; reflexivity|].
  vm_compute.
  discriminate.
Qed.

(** A status of 500 is no failure for the forwarder. *)
Lemma forward_ignores_response_witness :
  fst (SendPostToWebhook renderParagraph encodeStringGo urlErrorGo
         (transportStatus 500) "http://example.com/hook"
         {| Message := "M"; Title := "T"; Priority := 0%Z; Extras := None |}
         emptyOutside) = None.
Proof.
  apply (proj1 (forward_ignores_response renderParagraph encodeStringGo
                  urlErrorGo (transportStatus 500) "http://example.com/hook"
                  {| Message := "M"; Title := "T";
                     Priority := 0%Z; Extras := None |} emptyOutside)
           500%Z EmptyString).
  - vm_compute; reflexivity.
  - reflexivity.
Defined.

(** ** The lifecycle calls *)

Lemma length_lt_1 (s : string) :
  (String.length s <? 1)%nat = true <-> s = EmptyString.
Proof.
  destruct s; cbn; split; intros H; try reflexivity; discriminate.
Qed.

Lemma length_ge_1 (s : string) :
  s <> EmptyString -> (String.length s <? 1)%nat = false.
Proof.
  destruct s; cbn; intros H; [contradiction|reflexivity].
Qed.

Section LifecycleFacts.

Variable dial : string -> option GoError.
Context {S : Type} {SH : StorageHandler S}.

(** C5: with a configuration whose stream host, auth token or webhook
    URL is empty, [Enable] returns an error that names the first empty
    field in the order host, token, webhook URL; the plugin (its
    enabled flag and its storage) and the host (the engine tasks
    started) are as before the call. *)
Theorem Enable_incomplete_config
  (c : WebhookerPlugin S) (cfg : Config) (h : Host) :
  config c = Some cfg ->
  HostServer cfg = EmptyString \/ ClientToken cfg = EmptyString
  \/ WebhookUrl cfg = EmptyString ->
  exists msg : GoError,
    Enable dial c h = (Returns (Some msg), c, h)
    /\ (HostServer cfg = EmptyString ->
        msg = "Please enter the correct web server")
    /\ (HostServer cfg <> EmptyString -> ClientToken cfg = EmptyString ->
        msg = "Please enter the client token")
    /\ (HostServer cfg <> EmptyString -> ClientToken cfg <> EmptyString ->
        msg = "Please enter the correct webhook url").
Proof.
  intros Hc Hmiss.
  unfold Enable.
  rewrite Hc.
  destruct (String.length (HostServer cfg) <? 1)%nat eqn:Hh;
    [|destruct (String.length (ClientToken cfg) <? 1)%nat eqn:Ht;
      [|destruct (String.length (WebhookUrl cfg) <? 1)%nat eqn:Hw]].
  4: { exfalso.
       destruct Hmiss as [E|[E|E]]; rewrite E in *; discriminate. }
  all: eexists; split; [reflexivity|].
  all: rewrite ?length_lt_1 in *.
  all: repeat split; intros; try reflexivity; try congruence.
  all: match goal with
       | E : _ = EmptyString, F : (String.length _ <? 1)%nat = false |- _ =>
           rewrite E in F; discriminate
       end.
Qed.

(** A failing [Load] is what [Enable] and [Disable] return. *)
Lemma persist_load_failure (b : bool) (c : WebhookerPlugin S) (h : Host)
  (s s' : S) (err : GoError) :
  storageHandler c = Some s ->
  Load s = (s', inr err) ->
  fst (fst (persist b c h)) = Returns (Some err).
Proof.
  intros Hs Hl.
  unfold persist.
  rewrite Hs, Hl.
  reflexivity.
Qed.

(** Whatever [Save] returns, [Enable] and [Disable] return nil once
    [Load] has succeeded. *)
Lemma persist_ignores_save (b : bool) (c : WebhookerPlugin S) (h : Host)
  (s s' : S) (bytes : string) :
  storageHandler c = Some s ->
  Load s = (s', inl bytes) ->
  fst (fst (persist b c h)) = Returns None.
Proof.
  intros Hs Hl.
  unfold persist.
  rewrite Hs, Hl.
  destruct (Save _ s').
  reflexivity.
Qed.

End LifecycleFacts.

(** C5 at the default configuration, whose token and webhook URL are
    empty: the token is the first field reported. *)
Lemma Enable_incomplete_config_witness :
  exists msg : GoError,
    Enable dialOk (pluginWith (memStore EmptyString) DefaultConfig) emptyHost
    = (Returns (Some msg), pluginWith (memStore EmptyString) DefaultConfig,
       emptyHost)
    /\ msg = "Please enter the client token".
Proof.
  destruct (Enable_incomplete_config dialOk
              (pluginWith (memStore EmptyString) DefaultConfig)
              DefaultConfig emptyHost)
    as [msg [He [_ [Ht _]]]].
  - reflexivity.
  - right; left; reflexivity.
  - exists msg.
    split; [exact He|].
    apply Ht; [discriminate|reflexivity].
Defined.

Section MemStoreFacts.

Variable dial : string -> option GoError.

(** C6: with the three fields set, the probe succeeding and a store
    that neither fails to load nor to save, [Enable] and then [Disable]
    both return nil and leave the enabled flag false and the persisted
    blob [{wasEnabled: false}]. *)
Theorem Enable_then_Disable
  (c : WebhookerPlugin MemStore) (cfg : Config) (st : MemStore) (h : Host) :
  config c = Some cfg ->
  storageHandler c = Some st ->
  loadErr st = None ->
  saveErr st = None ->
  HostServer cfg <> EmptyString ->
  ClientToken cfg <> EmptyString ->
  WebhookUrl cfg <> EmptyString ->
  dial (HostServer cfg ++ "/stream?token=" ++ ClientToken cfg)%string = None ->
  let '(r1, c1, h1) := Enable dial c h in
  let '(r2, c2, h2) := Disable c1 h1 in
  r1 = Returns None
  /\ r2 = Returns None
  /\ enabled c2 = false
  /\ option_map blob (storageHandler c2) = Some (persistedBlob false).
Proof.
  intros Hc Hs Hl Hv Hh Ht Hw Hd.
  unfold Enable, TestSocket.
  rewrite Hc, (length_ge_1 _ Hh), (length_ge_1 _ Ht), (length_ge_1 _ Hw), Hd.
  unfold Disable, persist, setEnabled, setHandler.
  cbn [storageHandler enabled config].
  rewrite Hs.
  cbn [Load Save MemStoreHandler].
  rewrite Hl, Hv.
  cbn.
  repeat split; reflexivity.
Qed.

End MemStoreFacts.

(** C6 at the sample configuration. *)
Lemma Enable_then_Disable_witness :
  let '(r1, c1, h1) :=
    Enable dialOk (pluginWith (memStore EmptyString) sampleConfig) emptyHost in
  let '(r2, c2, h2) := Disable c1 h1 in
  r1 = Returns None
  /\ r2 = Returns None
  /\ enabled c2 = false
  /\ option_map blob (storageHandler c2) = Some (persistedBlob false).
Proof.
  apply (Enable_then_Disable dialOk
           (pluginWith (memStore EmptyString) sampleConfig)
           sampleConfig (memStore EmptyString) emptyHost);
    try reflexivity; discriminate.
Defined.

(** [json.Marshal] of a [Storage] writes the blob of the interface
    description, and [json.Unmarshal] reads it back. *)
Lemma marshalStorage_blob (b : bool) :
  Codec.marshalStorage {| WasEnabled := b |} = persistedBlob b.
Proof. reflexivity. Qed.

Lemma unmarshal_persisted (b : bool) (s : Storage) :
  Codec.unmarshalStorage (persistedBlob b) s = ({| WasEnabled := b |}, None).
Proof. destruct b; vm_compute; reflexivity. Qed.

(** C7: once [{wasEnabled: true}] has been saved in a store that works,
    the restore step ([ValidateAndSetConfig], which loads and decodes the
    blob) returns nil with the enabled flag true; the host is as before,
    so no engine task was started. *)
Theorem restore_round_trip
  (st : MemStore) (conf : Config) (c : WebhookerPlugin MemStore) (h : Host) :
  loadErr st = None ->
  saveErr st = None ->
  let (st', err) := Save (persistedBlob true) st in
  err = None
  /\ ValidateAndSetConfig validateStruct Codec.unmarshalStorage conf
       (SetStorageHandler st' c) h
     = (Returns None,
        {| enabled := true; storageHandler := Some st'; config := Some conf |},
        h).
Proof.
  intros Hl Hv.
  cbn [Save MemStoreHandler].
  rewrite Hv.
  split; [reflexivity|].
  unfold ValidateAndSetConfig, validateStruct, SetStorageHandler, setConfig,
    setHandler, setEnabled.
  cbn [storageHandler enabled config Load MemStoreHandler loadErr blob].
  rewrite Hl, unmarshal_persisted.
  reflexivity.
Qed.

Lemma restore_round_trip_witness :
  ValidateAndSetConfig validateStruct Codec.unmarshalStorage sampleConfig
    (SetStorageHandler (memStore (persistedBlob true))
       (NewGotifyPluginInstance MemStore)) emptyHost
  = (Returns None,
     {| enabled := true;
        storageHandler := Some (memStore (persistedBlob true));
        config := Some sampleConfig |},
     emptyHost).
Proof.
  exact (proj2 (restore_round_trip (memStore EmptyString) sampleConfig
                  (NewGotifyPluginInstance MemStore) emptyHost
                  eq_refl eq_refl)).
Defined.








(** C3: on a store whose [Save] fails, [Enable] and [Disable] return nil
    all the same; the flag is changed and the blob is not. *)
Lemma Enable_Disable_nil_on_failed_save :
  let failing (b : string) :=
    {| blob := b; loadErr := None; saveErr := Some "disk full" |} in
  let off := failing (persistedBlob false) in
  let on := failing (persistedBlob true) in
  snd (Save (persistedBlob true) off) = Some "disk full"
  /\ fst (Enable dialOk (pluginWith off sampleConfig) emptyHost)
     = (Returns None,
        {| enabled := true; storageHandler := Some off;
           config := Some sampleConfig |})
  /\ fst (Disable {| enabled := true; storageHandler := Some on;
                     config := Some sampleConfig |} emptyHost)
     = (Returns None,
        {| enabled := false; storageHandler := Some on;
           config := Some sampleConfig |}).
Proof.
  cbv zeta.
  repeat split; vm_compute; reflexivity.
Qed.

(** ** The reader goroutine *)

Lemma last_cons_default {A : Type} (a d : A) (l : list A) :
  last (a :: l) d = last l a.
Proof.
  revert a d; induction l as [|b l IH]; intros a d; [reflexivity|].
  change (last (a :: b :: l) d) with (last (b :: l) d).
  rewrite !IH.
  reflexivity.
Qed.

Lemma forwards_app (l1 l2 : list LogEntry) :
  forwards (l1 ++ l2) = forwards l1 ++ forwards l2.
Proof. apply flat_map_app. Qed.

Section ReaderFacts.

Variable render : string -> string.
Variable encodeString : string -> string.
Variable urlError : string -> option GoError.
Variable transport : list Request -> Request -> Response + GoError.
Variable unmarshalMessage
  : string -> PluginMessage -> PluginMessage * option GoError.

Let send := SendPostToWebhook render encodeString urlError transport.
Let loop :=
  readerLoop render encodeString urlError transport unmarshalMessage.
Let iteration :=
  readerIteration render encodeString urlError transport unmarshalMessage.

(** The requests that forwarding the messages [ms] hands to the
    client: one each when the URL parses, none when it does not. *)
Let requests (url : string) (ms : list PluginMessage) : list Request :=
  match urlError url with
  | None =>
      map (fun m =>
             webhookRequest render encodeString url (Title m) (Message m))
          ms
  | Some _ => []
  end.

(** A frame that decodes is forwarded once and the loop goes on,
    whether the forward fails or not. *)
Lemma iteration_decoded (url f : string) (m m' : PluginMessage)
  (o : Outside) :
  unmarshalMessage f m = (m', None) ->
  exists o',
    iteration url (ReadOk f) m o = Continue m' o'
    /\ forwards (logged o') = forwards (logged o) ++ [payloadOf render m']
    /\ posted o' = posted o ++ requests url [m'].
Proof.
  intros Hd.
  unfold iteration, readerIteration.
  rewrite Hd.
  pose proof (send_forwards render encodeString urlError transport
                url m' o) as [Hf _].
  pose proof (send_posted render encodeString urlError transport
                url m' o) as Hp.
  cbv zeta in Hf, Hp.
  destruct (SendPostToWebhook _ _ _ _ url m' o) as [[err|] o1];
    cbn [fst snd] in *; eexists; (split; [reflexivity|]).
  - cbn [logLine logged posted].
    rewrite forwards_app, Hf, Hp.
    cbn [forwards flat_map].
    rewrite !app_nil_r.
    unfold requests.
    destruct (urlError url); rewrite ?app_nil_r; auto.
  - rewrite Hf, Hp.
    unfold requests.
    destruct (urlError url); rewrite ?app_nil_r; auto.
Qed.

(** Over frames that all decode, the loop forwards each once, in
    order, and then goes on with what follows them. *)
Lemma loop_decodes (url : string) (m0 : PluginMessage) (fs : list string)
  (ms : list PluginMessage) :
  Decodes unmarshalMessage m0 fs ms ->
  forall (rest : list ReadResult) (o0 : Outside),
  exists o,
    loop url (map ReadOk fs ++ rest) m0 o0 = loop url rest (last ms m0) o
    /\ forwards (logged o)
       = forwards (logged o0) ++ map (payloadOf render) ms
    /\ posted o = posted o0 ++ requests url ms
    /\ length ms = length fs.
Proof.
  induction 1 as [m|m f m' fs ms Hd _ IH]; intros rest o0.
  - exists o0.
    unfold requests.
    destruct (urlError url); cbn; rewrite !app_nil_r; auto.
  - destruct (iteration_decoded url f m m' o0 Hd) as [o1 [Hi [Hf Hp]]].
    destruct (IH rest o1) as [o [Hl [Hf' [Hp' Hn]]]].
    exists o.
    rewrite last_cons_default.
    split; [|split; [|split]].
    + cbn [map app].
      unfold loop in *.
      cbn [readerLoop].
      unfold iteration in Hi.
      rewrite Hi.
      exact Hl.
    + rewrite Hf', Hf, <- app_assoc.
      reflexivity.
    + rewrite Hp', Hp, <- app_assoc.
      unfold requests.
      destruct (urlError url); reflexivity.
    + cbn; congruence.
Qed.

(** C1: when the frames before frame k decode and frame k does not, the
    reader forwards the frames before k, each once and in order, and
    the process exits at frame k: whatever follows frame k is left
    unread, so it is neither decoded nor forwarded. *)
Theorem reader_stops_at_bad_frame
  (url : string) (pre : list string) (bad : string)
  (post : list ReadResult) (m0 mb : PluginMessage) (o0 : Outside)
  (ms : list PluginMessage) (err : GoError) :
  Decodes unmarshalMessage m0 pre ms ->
  unmarshalMessage bad (last ms m0) = (mb, Some err) ->
  exists o,
    loop url (map ReadOk pre ++ ReadOk bad :: post) m0 o0
    = (ProcessExit post, o)
    /\ forwards (logged o)
       = forwards (logged o0) ++ map (payloadOf render) ms
    /\ length ms = length pre
    /\ posted o = posted o0 ++ requests url ms.
Proof.
  intros Hd Hb.
  destruct (loop_decodes url m0 pre ms Hd (ReadOk bad :: post) o0)
    as [o [Hl [Hf [Hp Hn]]]].
  exists (logLine (LogFatal "Json parsing error: " err) o).
  split; [|split; [|split]]; auto.
  - rewrite Hl.
    unfold loop.
    cbn [readerLoop readerIteration].
    rewrite Hb.
    reflexivity.
  - cbn [logLine logged].
    rewrite forwards_app, Hf.
    cbn.
    apply app_nil_r.
Qed.

(** C8: a forward that fails is logged and the loop goes on with the
    next frame; so over frames that all decode the reader forwards every
    one of them exactly once, in order, whatever the webhook does, and
    ends up waiting for the next frame. *)
Theorem reader_survives_forward_failure (url : string) :
  (forall (f : string) (rest : list ReadResult) (m m' : PluginMessage)
          (o o' : Outside) (err : GoError),
      unmarshalMessage f m = (m', None) ->
      send url m' o = (Some err, o') ->
      loop url (ReadOk f :: rest) m o
      = loop url rest m' (logLine (LogPostError err) o'))
  /\ (forall (fs : list string) (m0 : PluginMessage) (o0 : Outside)
             (ms : list PluginMessage),
         Decodes unmarshalMessage m0 fs ms ->
         exists o,
           loop url (map ReadOk fs) m0 o0 = (Blocked (last ms m0), o)
           /\ forwards (logged o)
              = forwards (logged o0) ++ map (payloadOf render) ms
           /\ length ms = length fs
           /\ posted o = posted o0 ++ requests url ms).
Proof.
  split.
  - intros f rest m m' o o' err Hd Hs.
    unfold loop, send in *.
    cbn [readerLoop readerIteration].
    rewrite Hd, Hs.
    reflexivity.
  - intros fs m0 o0 ms Hd.
    destruct (loop_decodes url m0 fs ms Hd [] o0) as [o [Hl [Hf [Hp Hn]]]].
    exists o.
    rewrite app_nil_r in Hl.
    rewrite Hl.
    auto.
Qed.

End ReaderFacts.

(** Two frames that decode, one after the other. *)
Lemma two_frames_decode :
  Decodes Codec.unmarshalMessage zeroMessage
    [frame "a" "b"; frame "c" "d"]
    [ {| Message := "b"; Title := "a"; Priority := 0%Z; Extras := None |};
      {| Message := "d"; Title := "c"; Priority := 0%Z; Extras := None |} ].
Proof.
  repeat (constructor; [vm_compute; reflexivity|]).
  constructor.
Qed.

(** C1 on four frames of which the third is cut short: the first two
    are forwarded, the fourth is left unread. *)
Lemma reader_stops_at_bad_frame_witness :
  exists o,
    readerLoop renderParagraph encodeStringGo urlErrorGo transportFlaky
      Codec.unmarshalMessage "http://example.com/hook"
      [ReadOk (frame "a" "b"); ReadOk (frame "c" "d"); ReadOk "{";
       ReadOk (frame "e" "f")]
      zeroMessage emptyOutside
    = (ProcessExit [ReadOk (frame "e" "f")], o)
    /\ forwards (logged o)
       = [ {| Username := "a"; Text := "b"; Html := renderParagraph "b" |};
           {| Username := "c"; Text := "d"; Html := renderParagraph "d" |} ].
Proof.
  destruct (reader_stops_at_bad_frame renderParagraph encodeStringGo
              urlErrorGo transportFlaky Codec.unmarshalMessage
              "http://example.com/hook"
              [frame "a" "b"; frame "c" "d"] "{" [ReadOk (frame "e" "f")]
              zeroMessage
              {| Message := "d"; Title := "c";
                 Priority := 0%Z; Extras := None |}
              emptyOutside _ Codec.syntaxError two_frames_decode)
    as [o [Hl [Hf _]]].
  - vm_compute; reflexivity.
  - exists o.
    split; [exact Hl|exact Hf].
Defined.

(** C8 on two frames and a webhook that is down for the first request:
    both frames are forwarded and the reader waits for a third. *)
Lemma reader_survives_forward_failure_witness :
  exists o,
    readerLoop renderParagraph encodeStringGo urlErrorGo transportFlaky
      Codec.unmarshalMessage "http://example.com/hook"
      [ReadOk (frame "a" "b"); ReadOk (frame "c" "d")]
      zeroMessage emptyOutside
    = (Blocked {| Message := "d"; Title := "c";
                  Priority := 0%Z; Extras := None |}, o)
    /\ forwards (logged o)
       = [ {| Username := "a"; Text := "b"; Html := renderParagraph "b" |};
           {| Username := "c"; Text := "d"; Html := renderParagraph "d" |} ].
Proof.
  destruct (proj2 (reader_survives_forward_failure renderParagraph
                     encodeStringGo urlErrorGo transportFlaky
                     Codec.unmarshalMessage "http://example.com/hook")
              [frame "a" "b"; frame "c" "d"] zeroMessage emptyOutside _
              two_frames_decode)
    as [o [Hl [Hf _]]].
  exists o.
  split; [exact Hl|exact Hf].
Defined.

(** The same run in full: the failed forward of the first frame is
    logged and not repeated, the second frame is posted. *)
Lemma failed_forward_is_logged_and_dropped :
  let r :=
    readerLoop renderParagraph encodeStringGo urlErrorGo transportFlaky
      Codec.unmarshalMessage "http://example.com/hook"
      [ReadOk (frame "a" "b"); ReadOk (frame "c" "d")]
      zeroMessage emptyOutside in
  postErrors (logged (snd r)) = ["dial tcp: connection refused"]
  /\ map Body (posted (snd r))
     = [ Codec.marshalWebhookPost encodeStringGo
           {| Username := "a"; Text := "b"; Html := renderParagraph "b" |};
         Codec.marshalWebhookPost encodeStringGo
           {| Username := "c"; Text := "d"; Html := renderParagraph "d" |} ].
Proof.
  cbv zeta.
  split; vm_compute; reflexivity.
Qed.

(** ** The engine *)

(** Closes a goal of the invariant after a step of the control loop: the
    count of closes is as before, or one more than the zero it was. *)
Ltac close_inv H :=
  cbn; split; [reflexivity | first [exact H | rewrite H; reflexivity]].

Section EngineFacts.

Variable render : string -> string.
Variable encodeString : string -> string.
Variable urlError : string -> option GoError.
Variable transport : list Request -> Request -> Response + GoError.
Variable dial : string -> option GoError.
Variable unmarshalMessage
  : string -> PluginMessage -> PluginMessage * option GoError.

Let step' :=
  step render encodeString urlError transport unmarshalMessage.
Let run' :=
  run render encodeString urlError transport unmarshalMessage.

Lemma step_connectedInv (url : string) (ev : Sched) (e : Engine) :
  connectedInv e -> connectedInv (step' url ev e).
Proof.
  intros [Hd Hm].
  destruct e as [ib im o w c ts dc mn ex].
  cbn in Hd, Hm.
  subst dc.
  unfold step', step, connectedInv.
  cbn [exited].
  destruct ex as [code|]; [split; [reflexivity|exact Hm]|].
  destruct ev as [|t wr|wr| |].
  - unfold readerStep.
    cbn [inbox incomingMsg out].
    destruct ib as [|r rest]; [split; [reflexivity|exact Hm]|].
    destruct (readerIteration _ _ _ _ _ _ _ _ _);
      split; [reflexivity|exact Hm|reflexivity|exact Hm].
  - destruct mn; try (split; [reflexivity|exact Hm]).
    destruct wr; close_inv Hm.
  - destruct mn; try (split; [reflexivity|exact Hm]).
    destruct wr; close_inv Hm.
  - destruct mn; split; first [reflexivity|exact Hm].
  - destruct mn; try (split; [reflexivity|exact Hm]).
    close_inv Hm.
Qed.

Lemma run_connectedInv (url : string) (sched : list Sched) :
  forall e, connectedInv e -> connectedInv (run' url sched e).
Proof.
  induction sched as [|ev sched IH]; intros e He; [exact He|].
  apply IH, step_connectedInv, He.
Qed.

(** Every return of [StartListener] from a connected run (a keepalive
    write that fails, a close frame that fails, the end of the grace
    wait) closes the connection, and exactly once; a run that has not
    returned has not closed it. *)
Lemma return_closes_once
  (serverUrl webhookUrl : string) (frames : list ReadResult)
  (sched : list Sched) :
  dial serverUrl = None ->
  let e :=
    StartListener render encodeString urlError transport dial
      unmarshalMessage serverUrl webhookUrl frames sched in
  doneClosed e = false
  /\ (forall r, main e = Returned r -> closes e = 1)
  /\ ((forall r, main e <> Returned r) -> closes e = 0).
Proof.
  intros Hdial e.
  assert (He : connectedInv e).
  { subst e.
    unfold StartListener.
    rewrite Hdial.
    apply run_connectedInv.
    split; reflexivity. }
  destruct He as [Hd Hm].
  split; [exact Hd|].
  split.
  - intros r Hr.
    rewrite Hr in Hm.
    exact Hm.
  - intros Hn.
    destruct (main e) as [| | |r]; try assumption; try contradiction.
    exfalso; exact (Hn r eq_refl).
Qed.

End EngineFacts.

(** ** The reader inside the engine *)

Section Interleaving.

Variable render : string -> string.
Variable encodeString : string -> string.
Variable urlError : string -> option GoError.
Variable transport : list Request -> Request -> Response + GoError.
Variable dial : string -> option GoError.
Variable unmarshalMessage
  : string -> PluginMessage -> PluginMessage * option GoError.

Let iteration :=
  readerIteration render encodeString urlError transport unmarshalMessage.
Let loop :=
  readerLoop render encodeString urlError transport unmarshalMessage.
Let step' := step render encodeString urlError transport unmarshalMessage.
Let run' := run render encodeString urlError transport unmarshalMessage.

(** What an iteration posts and forwards depends on what was posted and
    forwarded before, not on the other lines of the log. *)
Lemma iteration_view (url : string) (r : ReadResult) (m : PluginMessage)
  (o1 o2 : Outside) :
  posted o1 = posted o2 ->
  forwards (logged o1) = forwards (logged o2) ->
  match iteration url r m o1, iteration url r m o2 with
  | Continue m1 o1', Continue m2 o2' =>
      m1 = m2 /\ posted o1' = posted o2'
      /\ forwards (logged o1') = forwards (logged o2')
  | Fatal o1', Fatal o2' =>
      posted o1' = posted o2'
      /\ forwards (logged o1') = forwards (logged o2')
  | _, _ => False
  end.
Proof.
  intros Hp Hf.
  unfold iteration, readerIteration.
  destruct r as [message|err].
  - destruct (unmarshalMessage message m) as [m' [e|]].
    + cbn [logLine posted logged].
      rewrite !forwards_app, Hf.
      auto.
    + rewrite !send_unfold.
      cbv zeta.
      rewrite Hp.
      destruct (urlError url) as [e|];
        [|destruct (transport (posted o2) _) as [res|e]];
        cbn [logLine doRequest posted logged];
        rewrite ?forwards_app, Hf, ?Hp; auto.
  - cbn [logLine posted logged].
    rewrite !forwards_app, Hf.
    auto.
Qed.

Lemma readerStep_view (url : string) (e1 e2 : Engine) :
  readerView e1 = readerView e2 ->
  readerView (step' url SReader e1) = readerView (step' url SReader e2).
Proof.
  unfold readerView.
  intros [= Hi Hm Hp Hf Hx].
  unfold step', step, readerStep.
  rewrite Hx.
  destruct (exited e2) eqn:Hx2; [congruence|].
  rewrite Hi, Hm.
  destruct (inbox e2) as [|r rest] eqn:Hi2; [congruence|].
  pose proof (iteration_view url r (incomingMsg e2) (out e1) (out e2) Hp Hf)
    as Hv.
  unfold iteration in Hv.
  destruct (readerIteration _ _ _ _ _ url r (incomingMsg e2) (out e1));
    destruct (readerIteration _ _ _ _ _ url r (incomingMsg e2) (out e2));
    try contradiction; cbn.
  - destruct Hv as [-> [-> ->]]; reflexivity.
  - destruct Hv as [-> ->]; reflexivity.
Qed.

Lemma controlStep_view (url : string) (ev : Sched) (e : Engine) :
  isReaderStep ev = false ->
  readerView (step' url ev e) = readerView e.
Proof.
  intros Hev.
  unfold step', step.
  destruct (exited e) eqn:Hx; [reflexivity|].
  destruct e as [ib im o w c ts dc mn ex].
  cbn in Hx; subst ex.
  destruct ev as [|t wr|wr| |]; [discriminate| | | |];
    destruct mn; try reflexivity; cbn.
  - destruct wr; unfold readerView; cbn;
      rewrite ?forwards_app; cbn; rewrite ?app_nil_r; reflexivity.
  - destruct wr; unfold readerView; cbn;
      rewrite ?forwards_app; cbn; rewrite ?app_nil_r; reflexivity.
  - destruct dc; reflexivity.
  - destruct dc; reflexivity.
Qed.

(** The reader goes its way whatever the control loop does in between:
    what it has read, posted and forwarded after a schedule is what it
    has after the reader steps of that schedule alone. *)
Lemma run_view (url : string) (sched : list Sched) :
  forall e1 e2,
    readerView e1 = readerView e2 ->
    readerView (run' url sched e1)
    = readerView (run' url (filter isReaderStep sched) e2).
Proof.
  induction sched as [|ev sched IH]; intros e1 e2 Hv; [exact Hv|].
  cbn [filter].
  destruct (isReaderStep ev) eqn:Hev.
  - destruct ev; try discriminate.
    cbn [run' run].
    apply IH, readerStep_view, Hv.
  - cbn [run' run].
    apply IH.
    unfold run'.
    rewrite <- Hv.
    apply controlStep_view, Hev.
Qed.

(** Nothing happens in a process that has exited. *)
Lemma run_exited (url : string) (sched : list Sched) (e : Engine) (code : Z) :
  exited e = Some code -> run' url sched e = e.
Proof.
  intros Hx.
  induction sched as [|ev sched IH]; [reflexivity|].
  cbn [run' run].
  unfold step.
  rewrite Hx.
  exact IH.
Qed.

(** Reader steps alone follow [readerLoop]. *)
Lemma run_reader_steps (url : string) (frames : list ReadResult) :
  forall (e : Engine),
    inbox e = frames ->
    exited e = None ->
    let e' := run' url (repeat SReader (length frames)) e in
    match loop url frames (incomingMsg e) (out e) with
    | (Blocked m, o) =>
        inbox e' = [] /\ incomingMsg e' = m /\ out e' = o /\ exited e' = None
    | (ProcessExit rest, o) =>
        inbox e' = rest /\ out e' = o /\ exited e' = Some 1%Z
    end.
Proof.
  induction frames as [|r rest IH]; intros e Hi Hx.
  - cbn.
    auto.
  - cbn [length repeat run' run loop readerLoop].
    unfold step, readerStep.
    rewrite Hx, Hi.
    destruct (readerIteration _ _ _ _ _ url r (incomingMsg e) (out e))
      as [m o|o] eqn:It.
    + apply (IH {| inbox := rest; incomingMsg := m; out := o;
                   wrote := wrote e; closes := closes e;
                   tickerStopped := tickerStopped e;
                   doneClosed := doneClosed e; main := main e;
                   exited := None |}); reflexivity.
    + rewrite run_exited with (code := 1%Z) by reflexivity.
      cbn; auto.
Qed.

Lemma run_app (url : string) (s1 s2 : list Sched) :
  forall e, run' url (s1 ++ s2) e = run' url s2 (run' url s1 e).
Proof.
  induction s1 as [|ev s1 IH]; intros e; [reflexivity|].
  cbn [app run' run].
  apply IH.
Qed.

(** With nothing to read the reader stays blocked. *)
Lemma run_reader_idle (url : string) (k : nat) (e : Engine) :
  inbox e = [] -> run' url (repeat SReader k) e = e.
Proof.
  intros Hi.
  induction k as [|k IH]; [reflexivity|].
  cbn [repeat run' run].
  unfold step, readerStep.
  rewrite Hi.
  destruct (exited e); exact IH.
Qed.

Lemma filter_reader_repeat (sched : list Sched) :
  filter isReaderStep sched
  = repeat SReader (length (filter isReaderStep sched)).
Proof.
  induction sched as [|ev sched IH]; [reflexivity|].
  destruct ev; cbn [filter isReaderStep]; try exact IH.
  cbn [length repeat].
  f_equal; exact IH.
Qed.

(** X18: under any schedule that lets the reader run once per frame, the
    engine has posted and forwarded what [readerLoop] posts and forwards
    on those frames, and the process has exited exactly when
    [readerLoop] ends in an exit. *)
Theorem engine_follows_readerLoop
  (serverUrl webhookUrl : string) (frames : list ReadResult)
  (sched : list Sched) :
  dial serverUrl = None ->
  length frames <= length (filter isReaderStep sched) ->
  let e :=
    StartListener render encodeString urlError transport dial
      unmarshalMessage serverUrl webhookUrl frames sched in
  match loop webhookUrl frames zeroMessage
          {| posted := []; logged := [LogConnected serverUrl] |} with
  | (Blocked m, o) =>
      exited e = None /\ inbox e = [] /\ incomingMsg e = m
      /\ posted (out e) = posted o
      /\ forwards (logged (out e)) = forwards (logged o)
  | (ProcessExit rest, o) =>
      exited e = Some 1%Z /\ inbox e = rest
      /\ posted (out e) = posted o
      /\ forwards (logged (out e)) = forwards (logged o)
  end.
Proof.
  intros Hdial Hlen e.
  subst e.
  unfold StartListener.
  rewrite Hdial.
  set (e0 := setMain Connected (engineLog (LogConnected serverUrl)
                                          (idle frames))).
  pose proof (run_view webhookUrl sched e0 e0 eq_refl) as Hv.
  rewrite filter_reader_repeat in Hv.
  replace (length (filter isReaderStep sched))
    with (length frames + (length (filter isReaderStep sched) - length frames))
    in Hv by lia.
  rewrite repeat_app, run_app in Hv.
  pose proof (run_reader_steps webhookUrl frames e0 eq_refl eq_refl) as Hr.
  cbv zeta in Hr.
  change (incomingMsg e0) with zeroMessage in Hr.
  change (out e0)
    with {| posted := []; logged := [LogConnected serverUrl] |} in Hr.
  unfold run', loop in *.
  destruct (readerLoop _ _ _ _ _ webhookUrl frames zeroMessage _)
    as [[m|rest] o].
  - destruct Hr as [Hi [Hm [Ho Hx]]].
    rewrite (run_reader_idle webhookUrl _ _ Hi) in Hv.
    unfold readerView in Hv.
    injection Hv as -> -> -> -> ->.
    rewrite Ho.
    auto.
  - destruct Hr as [Hi [Ho Hx]].
    rewrite (run_exited webhookUrl _ _ 1%Z Hx) in Hv.
    unfold readerView in Hv.
    injection Hv as -> _ -> -> ->.
    rewrite Ho.
    auto.
Qed.

End Interleaving.

(** C2: the connection is open and its first [ReadMessage] fails.  The
    reader logs with [log.Fatal], the process exits, and [ws.Close] has
    not been called; nothing that follows changes that. *)
Lemma reader_exit_skips_close :
  let e :=
    StartListener renderParagraph encodeStringGo urlErrorGo
      (transportStatus 200) dialOk Codec.unmarshalMessage
      "ws://localhost:8080/stream?token=abc" "http://example.com/hook"
      [ReadErr "unexpected EOF"] [SReader; SDone; STimeout] in
  exited e = Some 1%Z
  /\ main e = Connected
  /\ doneClosed e = false
  /\ closes e = 0.
Proof.
  cbv zeta.
  repeat split; vm_compute; reflexivity.
Qed.

(** The same on a frame that does not decode. *)
Lemma decode_exit_skips_close :
  let e :=
    StartListener renderParagraph encodeStringGo urlErrorGo
      (transportStatus 200) dialOk Codec.unmarshalMessage
      "ws://localhost:8080/stream?token=abc" "http://example.com/hook"
      [ReadOk "{"] [SReader; SInterrupt None; STimeout] in
  exited e = Some 1%Z /\ main e = Connected /\ closes e = 0.
Proof.
  cbv zeta.
  repeat split; vm_compute; reflexivity.
Qed.

(** The exits of the control loop, for comparison: a failed keepalive
    write and an interrupt each close the connection once. *)
Lemma control_exits_close_once :
  let start :=
    StartListener renderParagraph encodeStringGo urlErrorGo
      (transportStatus 200) dialOk Codec.unmarshalMessage
      "ws://localhost:8080/stream?token=abc" "http://example.com/hook"
      [ReadOk (frame "a" "b")] in
  closes (start [STick "t1" None; SReader; STick "t2" (Some "broken pipe")])
  = 1
  /\ closes (start [SInterrupt None; SReader; STimeout; STimeout]) = 1
  /\ wrote (start [SInterrupt None; SReader; STimeout; STimeout])
     = [CloseMessage CloseNormalClosure EmptyString].
Proof.
  cbv zeta.
  repeat split; vm_compute; reflexivity.
Qed.

(* ------------------------------------------------------------------ *)
(** * Further properties of the lifecycle calls *)

(** Splits a conjunction, and only that. *)
Ltac conj := match goal with |- _ /\ _ => split end.

Section EnablePaths.

Variable dial : string -> option GoError.
Context {S : Type} {SH : StorageHandler S}.

(** [Enable] past its three checks: the probe, and on its success the
    start of the engine, the flag and the storage. *)
Lemma Enable_complete (c : WebhookerPlugin S) (cfg : Config) (h : Host) :
  config c = Some cfg ->
  complete cfg ->
  Enable dial c h
  = let h1 := recordDial (streamUrl cfg) h in
    match dial (streamUrl cfg) with
    | Some err =>
        (Returns (Some "Web server url or client_token is not valid"), c,
         hostLogLine (LogTestDialError err) h1)
    | None =>
        persist true (setEnabled true c)
          (hostLogLine LogEnabled
             (spawn (streamUrl cfg)
                (hostLogLine (LogWebsocketUrl (streamUrl cfg)) h1)))
    end.
Proof.
  intros Hc [Hh [Ht Hw]].
  unfold Enable, TestSocket, streamUrl.
  rewrite Hc, (length_ge_1 _ Hh), (length_ge_1 _ Ht), (length_ge_1 _ Hw).
  cbv zeta.
  destruct (dial _); reflexivity.
Qed.

(** X1: when the three fields are set and the probe fails, [Enable]
    returns its own fixed error in place of the dialler's, and leaves the
    plugin as it was; the host has seen one dial of the stream URL and no
    engine task. *)
Theorem Enable_probe_failure
  (c : WebhookerPlugin S) (cfg : Config) (h : Host) (err : GoError) :
  config c = Some cfg ->
  complete cfg ->
  dial (streamUrl cfg) = Some err ->
  exists h',
    Enable dial c h
    = (Returns (Some "Web server url or client_token is not valid"), c, h')
    /\ spawned h' = spawned h
    /\ dialled h' = dialled h ++ [streamUrl cfg]
    /\ hostLog h' = hostLog h ++ [LogTestDialError err].
Proof.
  intros Hc Hk Hd.
  rewrite (Enable_complete c cfg h Hc Hk).
  cbv zeta.
  rewrite Hd.
  eexists; split; [reflexivity|].
  repeat split; reflexivity.
Qed.

(** X3: when the probe has passed and then [Load] fails, [Enable]
    returns the error of [Load] with the engine task already started and
    the enabled flag already true; [Save] is not called. *)
Theorem Enable_load_failure
  (c : WebhookerPlugin S) (cfg : Config) (h : Host)
  (s s' : S) (err : GoError) :
  config c = Some cfg ->
  complete cfg ->
  dial (streamUrl cfg) = None ->
  storageHandler c = Some s ->
  Load s = (s', inr err) ->
  exists h',
    Enable dial c h
    = (Returns (Some err),
       {| enabled := true; storageHandler := Some s'; config := Some cfg |},
       h')
    /\ spawned h' = spawned h ++ [streamUrl cfg].
Proof.
  intros Hc Hk Hd Hs Hl.
  rewrite (Enable_complete c cfg h Hc Hk).
  cbv zeta.
  rewrite Hd.
  unfold persist, setEnabled, setHandler.
  cbn [storageHandler enabled config].
  rewrite Hs, Hl, Hc.
  eexists; split; reflexivity.
Qed.

(** X5: whatever the plugin and the storage, [Disable] leaves the
    enabled flag false and the configuration as it was, starts and stops
    no engine task and dials nothing; it panics exactly when no storage
    handler is set. *)
Theorem Disable_on_every_path (c : WebhookerPlugin S) (h : Host) :
  let '(r, c', h') := Disable c h in
  enabled c' = false
  /\ config c' = config c
  /\ spawned h' = spawned h
  /\ dialled h' = dialled h
  /\ (r = Panics <-> storageHandler c = None).
Proof.
  unfold Disable, persist, setEnabled, setHandler.
  cbn [storageHandler enabled config].
  destruct (storageHandler c) as [s|].
  - destruct (Load s) as [s' [bytes|err]].
    + destruct (Save _ s') as [s'' e].
      repeat split; try reflexivity; discriminate.
    + repeat split; try reflexivity; discriminate.
  - repeat split; reflexivity.
Qed.

(** X6: when [Load] fails, [Disable] returns its error; the flag is
    false all the same, and [Save] is not called. *)
Theorem Disable_load_failure
  (c : WebhookerPlugin S) (h : Host) (s s' : S) (err : GoError) :
  storageHandler c = Some s ->
  Load s = (s', inr err) ->
  Disable c h
  = (Returns (Some err),
     {| enabled := false; storageHandler := Some s'; config := config c |},
     hostLogLine LogDisabled h).
Proof.
  intros Hs Hl.
  unfold Disable, persist, setEnabled, setHandler.
  cbn [storageHandler enabled config].
  rewrite Hs, Hl.
  reflexivity.
Qed.

Variable validate : Config -> option GoError.
Variable unmarshalStorage : string -> Storage -> Storage * option GoError.

(** X7: on every path [ValidateAndSetConfig] starts no engine task and
    dials nothing; the configuration is replaced exactly when the
    validation passes, also when the call then fails or panics; and the
    enabled flag changes only when the call returns nil. *)
Theorem ValidateAndSetConfig_on_every_path
  (conf : Config) (c : WebhookerPlugin S) (h : Host) :
  let '(r, c', h') :=
    ValidateAndSetConfig validate unmarshalStorage conf c h in
  spawned h' = spawned h
  /\ dialled h' = dialled h
  /\ config c' = match validate conf with
                 | None => Some conf
                 | Some _ => config c
                 end
  /\ (r <> Returns None -> enabled c' = enabled c)
  /\ (forall err, validate conf = Some err ->
                  r = Returns (Some ("Validation error: " ++ err)%string)
                  /\ c' = c).
Proof.
  unfold ValidateAndSetConfig, setConfig, setHandler, setEnabled.
  destruct (validate conf) as [e|].
  - repeat conj; try reflexivity.
    intros e' [= ->]; split; reflexivity.
  - cbn [storageHandler enabled config].
    destruct (storageHandler c) as [s|];
      [destruct (Load s) as [s' [bytes|lerr]];
       [destruct (unmarshalStorage bytes newStorage) as [st e]|]|];
      repeat conj; try reflexivity; try discriminate.
    intros Hr; exfalso; apply Hr; reflexivity.
Qed.

(** X9: a plugin fresh from [NewGotifyPluginInstance] has neither
    configuration nor storage handler: [Enable] panics on it at once, and
    [Disable] panics after it has cleared the flag and logged. *)
Theorem fresh_instance_panics (h : Host) :
  Enable dial (NewGotifyPluginInstance S) h
  = (Panics, NewGotifyPluginInstance S, h)
  /\ Disable (NewGotifyPluginInstance S) h
     = (Panics, NewGotifyPluginInstance S, hostLogLine LogDisabled h)
  /\ forall conf,
       validate conf = None ->
       ValidateAndSetConfig validate unmarshalStorage conf
         (NewGotifyPluginInstance S) h
       = (Panics,
          {| enabled := false; storageHandler := None; config := Some conf |},
          h).
Proof.
  split; [reflexivity|].
  split; [reflexivity|].
  intros conf Hv.
  unfold ValidateAndSetConfig.
  rewrite Hv.
  reflexivity.
Qed.

End EnablePaths.

Section EnableOnMemStore.

Variable dial : string -> option GoError.

(** [Enable] on a store that works. *)
Lemma Enable_working_store
  (c : WebhookerPlugin MemStore) (cfg : Config) (st : MemStore) (h : Host) :
  config c = Some cfg ->
  complete cfg ->
  dial (streamUrl cfg) = None ->
  storageHandler c = Some st ->
  loadErr st = None ->
  saveErr st = None ->
  Enable dial c h
  = (Returns None,
     {| enabled := true;
        storageHandler := Some (memStore (persistedBlob true));
        config := Some cfg |},
     hostLogLine LogEnabled
       (spawn (streamUrl cfg)
          (hostLogLine (LogWebsocketUrl (streamUrl cfg))
             (recordDial (streamUrl cfg) h)))).
Proof.
  intros Hc Hk Hd Hs Hl Hv.
  rewrite (Enable_complete dial c cfg h Hc Hk).
  cbv zeta.
  rewrite Hd.
  unfold persist, setEnabled, setHandler, memStore.
  cbn [storageHandler enabled config].
  rewrite Hs, Hc.
  cbn [Load Save MemStoreHandler].
  rewrite Hl, Hv.
  reflexivity.
Qed.

(** X2: with the three fields set, the probe passing and a store that
    works, [Enable] returns nil, the flag is true, one engine task is
    started on the stream URL the probe dialled, and the blob is
    [{wasEnabled: true}] whatever the store held before. *)
Theorem Enable_success
  (c : WebhookerPlugin MemStore) (cfg : Config) (st : MemStore) (h : Host) :
  config c = Some cfg ->
  complete cfg ->
  dial (streamUrl cfg) = None ->
  storageHandler c = Some st ->
  loadErr st = None ->
  saveErr st = None ->
  let '(r, c', h') := Enable dial c h in
  r = Returns None
  /\ enabled c' = true
  /\ config c' = Some cfg
  /\ option_map blob (storageHandler c') = Some (persistedBlob true)
  /\ spawned h' = spawned h ++ [streamUrl cfg]
  /\ dialled h' = dialled h ++ [streamUrl cfg].
Proof.
  intros Hc Hk Hd Hs Hl Hv.
  rewrite (Enable_working_store c cfg st h Hc Hk Hd Hs Hl Hv).
  repeat split; reflexivity.
Qed.

(** X4: [Enable] does not look at the enabled flag: called again on a
    plugin it has just enabled, it starts a second engine task on the same
    stream URL. *)
Theorem Enable_twice
  (c : WebhookerPlugin MemStore) (cfg : Config) (st : MemStore) (h : Host) :
  config c = Some cfg ->
  complete cfg ->
  dial (streamUrl cfg) = None ->
  storageHandler c = Some st ->
  loadErr st = None ->
  saveErr st = None ->
  let '(r1, c1, h1) := Enable dial c h in
  let '(r2, c2, h2) := Enable dial c1 h1 in
  enabled c1 = true
  /\ r2 = Returns None
  /\ c2 = c1
  /\ spawned h2 = spawned h ++ [streamUrl cfg; streamUrl cfg].
Proof.
  intros Hc Hk Hd Hs Hl Hv.
  rewrite (Enable_working_store c cfg st h Hc Hk Hd Hs Hl Hv).
  rewrite (Enable_working_store
             {| enabled := true;
                storageHandler := Some (memStore (persistedBlob true));
                config := Some cfg |}
             cfg (memStore (persistedBlob true)) _
             eq_refl Hk Hd eq_refl eq_refl eq_refl).
  repeat split; try reflexivity.
  cbn [spawned spawn hostLogLine recordDial].
  rewrite <- app_assoc.
  reflexivity.
Qed.

(** X8: the flag survives a restart through the store.  A plugin started
    anew on the store of a plugin that [Enable] has enabled comes up
    enabled, and one started on the store after the [Disable] that
    followed comes up disabled. *)
Theorem restart_restores_flag
  (c : WebhookerPlugin MemStore) (cfg conf : Config) (st : MemStore)
  (h : Host) :
  config c = Some cfg ->
  complete cfg ->
  dial (streamUrl cfg) = None ->
  storageHandler c = Some st ->
  loadErr st = None ->
  saveErr st = None ->
  let '(_, c1, h1) := Enable dial c h in
  let '(_, c2, _) := Disable c1 h1 in
  flagAfterRestart conf c1 = Some true
  /\ flagAfterRestart conf c2 = Some false.
Proof.
  intros Hc Hk Hd Hs Hl Hv.
  rewrite (Enable_working_store c cfg st h Hc Hk Hd Hs Hl Hv).
  unfold Disable, persist, setEnabled, setHandler.
  cbn [storageHandler enabled config Load Save MemStoreHandler memStore
       loadErr saveErr blob].
  unfold flagAfterRestart, startPlugin, ValidateAndSetConfig, validateStruct,
    SetStorageHandler, setConfig, setHandler, setEnabled.
  cbn [storageHandler enabled config Load Save MemStoreHandler memStore
       loadErr saveErr blob NewGotifyPluginInstance].
  rewrite marshalStorage_blob, !unmarshal_persisted.
  split; reflexivity.
Qed.

End EnableOnMemStore.

Lemma sampleConfig_complete : complete sampleConfig.
Proof. repeat split; discriminate. Qed.

(** A stream server that refuses every connection. *)
Lemma Enable_probe_failure_witness :
  exists h',
    Enable (fun _ => Some "connection refused")
      (pluginWith (memStore EmptyString) sampleConfig) emptyHost
    = (Returns (Some "Web server url or client_token is not valid"),
       pluginWith (memStore EmptyString) sampleConfig, h')
    /\ spawned h' = [].
Proof.
  destruct (Enable_probe_failure (fun _ => Some "connection refused")
              (pluginWith (memStore EmptyString) sampleConfig) sampleConfig
              emptyHost "connection refused" eq_refl sampleConfig_complete
              eq_refl)
    as [h' [He [Hs _]]].
  exists h'.
  split; [exact He|exact Hs].
Defined.

Lemma Enable_load_failure_witness :
  exists h',
    Enable dialOk (pluginWith unreadableStore sampleConfig) emptyHost
    = (Returns (Some "no such file"),
       {| enabled := true; storageHandler := Some unreadableStore;
          config := Some sampleConfig |},
       h')
    /\ spawned h' = [streamUrl sampleConfig].
Proof.
  exact (Enable_load_failure dialOk
           (pluginWith unreadableStore sampleConfig) sampleConfig emptyHost
           unreadableStore unreadableStore "no such file"
           eq_refl sampleConfig_complete eq_refl eq_refl eq_refl).
Defined.

Lemma Disable_load_failure_witness :
  Disable {| enabled := true; storageHandler := Some unreadableStore;
             config := Some sampleConfig |} emptyHost
  = (Returns (Some "no such file"),
     {| enabled := false; storageHandler := Some unreadableStore;
        config := Some sampleConfig |},
     hostLogLine LogDisabled emptyHost).
Proof.
  exact (Disable_load_failure
           {| enabled := true; storageHandler := Some unreadableStore;
              config := Some sampleConfig |}
           emptyHost unreadableStore unreadableStore "no such file"
           eq_refl eq_refl).
Defined.

Lemma fresh_instance_panics_witness :
  ValidateAndSetConfig validateStruct Codec.unmarshalStorage sampleConfig
    (NewGotifyPluginInstance MemStore) emptyHost
  = (Panics,
     {| enabled := false; storageHandler := None;
        config := Some sampleConfig |},
     emptyHost).
Proof.
  exact (proj2 (proj2 (fresh_instance_panics dialOk validateStruct
                         Codec.unmarshalStorage emptyHost))
           sampleConfig eq_refl).
Defined.

Lemma ValidateAndSetConfig_on_every_path_witness :
  let r :=
    ValidateAndSetConfig (fun _ => Some "WebhookUrl is required")
      Codec.unmarshalStorage sampleConfig
      (pluginWith (memStore (persistedBlob true)) DefaultConfig) emptyHost in
  fst (fst r) = Returns (Some "Validation error: WebhookUrl is required")
  /\ snd (fst r) = pluginWith (memStore (persistedBlob true)) DefaultConfig.
Proof.
  exact (proj2 (proj2 (proj2 (proj2
           (ValidateAndSetConfig_on_every_path
              (fun _ => Some "WebhookUrl is required")
              Codec.unmarshalStorage sampleConfig
              (pluginWith (memStore (persistedBlob true)) DefaultConfig)
              emptyHost))))
           "WebhookUrl is required" eq_refl).
Defined.

Lemma Enable_success_witness :
  let '(r, c', h') :=
    Enable dialOk (pluginWith (memStore "stale") sampleConfig) emptyHost in
  r = Returns None
  /\ enabled c' = true
  /\ config c' = Some sampleConfig
  /\ option_map blob (storageHandler c') = Some (persistedBlob true)
  /\ spawned h' = [streamUrl sampleConfig]
  /\ dialled h' = [streamUrl sampleConfig].
Proof.
  exact (Enable_success dialOk (pluginWith (memStore "stale") sampleConfig)
           sampleConfig (memStore "stale") emptyHost
           eq_refl sampleConfig_complete eq_refl eq_refl eq_refl eq_refl).
Defined.

Lemma Enable_twice_witness :
  let '(r1, c1, h1) :=
    Enable dialOk (pluginWith (memStore EmptyString) sampleConfig) emptyHost in
  let '(r2, c2, h2) := Enable dialOk c1 h1 in
  enabled c1 = true
  /\ r2 = Returns None
  /\ c2 = c1
  /\ spawned h2 = [streamUrl sampleConfig; streamUrl sampleConfig].
Proof.
  exact (Enable_twice dialOk (pluginWith (memStore EmptyString) sampleConfig)
           sampleConfig (memStore EmptyString) emptyHost
           eq_refl sampleConfig_complete eq_refl eq_refl eq_refl eq_refl).
Defined.

Lemma restart_restores_flag_witness :
  let '(_, c1, h1) :=
    Enable dialOk (pluginWith (memStore EmptyString) sampleConfig) emptyHost in
  let '(_, c2, _) := Disable c1 h1 in
  flagAfterRestart DefaultConfig c1 = Some true
  /\ flagAfterRestart DefaultConfig c2 = Some false.
Proof.
  exact (restart_restores_flag dialOk
           (pluginWith (memStore EmptyString) sampleConfig)
           sampleConfig DefaultConfig (memStore EmptyString) emptyHost
           eq_refl sampleConfig_complete eq_refl eq_refl eq_refl eq_refl).
Defined.

(* ------------------------------------------------------------------ *)
(** * Further properties of the forwarder and of the reader *)

Lemma postErrors_app (l1 l2 : list LogEntry) :
  postErrors (l1 ++ l2) = postErrors l1 ++ postErrors l2.
Proof. apply flat_map_app. Qed.

Section ReaderPaths.

Variable render : string -> string.
Variable encodeString : string -> string.
Variable urlError : string -> option GoError.
Variable transport : list Request -> Request -> Response + GoError.
Variable unmarshalMessage
  : string -> PluginMessage -> PluginMessage * option GoError.

Let send := SendPostToWebhook render encodeString urlError transport.
Let loop :=
  readerLoop render encodeString urlError transport unmarshalMessage.

(** X10: every call of [SendPostToWebhook] adds exactly one line to the
    log, the payload it derived from the event, also when the request
    cannot be built or sent; the error of a failed call is left to the
    caller to log. *)
Theorem forward_logs_payload (url : string) (m : PluginMessage) (o : Outside) :
  logged (snd (send url m o))
  = logged o ++ [LogSending {| Username := Title m; Text := Message m;
                               Html := render (Message m) |}].
Proof.
  unfold send.
  rewrite send_unfold.
  cbv zeta.
  destruct (urlError url); [reflexivity|].
  destruct (transport _ _); reflexivity.
Qed.

(** X11: a failed [ReadMessage] ends the process like a frame that does
    not decode: the frames read before it are forwarded, each once and in
    order, the fatal line is the last of the log, and what the connection
    would have delivered afterwards is never read. *)
Theorem reader_stops_at_read_error
  (url : string) (pre : list string) (rerr : GoError)
  (post : list ReadResult) (m0 : PluginMessage) (o0 : Outside)
  (ms : list PluginMessage) :
  Decodes unmarshalMessage m0 pre ms ->
  exists o,
    loop url (map ReadOk pre ++ ReadErr rerr :: post) m0 o0
    = (ProcessExit post,
       logLine (LogFatal "Websocket read message error: " rerr) o)
    /\ forwards (logged o)
       = forwards (logged o0) ++ map (payloadOf render) ms
    /\ length ms = length pre.
Proof.
  intros Hd.
  destruct (loop_decodes render encodeString urlError transport
              unmarshalMessage url m0 pre ms Hd (ReadErr rerr :: post) o0)
    as [o [Hl [Hf [_ Hn]]]].
  exists o.
  split; [exact Hl|].
  split; [exact Hf|exact Hn].
Qed.

(** One iteration under a webhook URL that does not parse. *)
Lemma iteration_bad_url (url f : string) (m m' : PluginMessage)
  (o : Outside) (e : GoError) :
  urlError url = Some e ->
  unmarshalMessage f m = (m', None) ->
  readerIteration render encodeString urlError transport unmarshalMessage
    url (ReadOk f) m o
  = Continue m'
      (logLine (LogPostError e)
         (logLine (LogSending (payloadOf render m')) o)).
Proof.
  intros Hu Hd.
  unfold readerIteration.
  rewrite Hd, send_unfold.
  cbv zeta.
  rewrite Hu.
  reflexivity.
Qed.

(** X12: a webhook URL that does not parse never stops the reader: over
    frames that all decode, nothing is handed to the HTTP client, the
    same error is logged once for every frame, and the reader ends up
    waiting for the next frame. *)
Theorem reader_drops_all_on_bad_url
  (url : string) (e : GoError) (fs : list string) (ms : list PluginMessage) :
  urlError url = Some e ->
  forall (m0 : PluginMessage) (o0 : Outside),
    Decodes unmarshalMessage m0 fs ms ->
    exists o,
      loop url (map ReadOk fs) m0 o0 = (Blocked (last ms m0), o)
      /\ posted o = posted o0
      /\ postErrors (logged o)
         = postErrors (logged o0) ++ repeat e (length fs).
Proof.
  intros Hu m0 o0 Hd.
  revert o0.
  induction Hd as [m|m f m' fs ms Hf _ IH]; intros o0.
  - exists o0.
    cbn.
    rewrite app_nil_r.
    auto.
  - destruct (IH (logLine (LogPostError e)
                    (logLine (LogSending (payloadOf render m')) o0)))
      as [o [Hl [Hp He]]].
    exists o.
    rewrite last_cons_default.
    split; [|split].
    + unfold loop in *.
      cbn [map readerLoop].
      rewrite (iteration_bad_url url f m m' o0 e Hu Hf).
      exact Hl.
    + rewrite Hp.
      reflexivity.
    + rewrite He.
      cbn [logLine logged length repeat].
      rewrite !postErrors_app.
      cbn.
      rewrite app_nil_r, <- app_assoc.
      reflexivity.
Qed.

(** One iteration under a webhook that answers. *)
Lemma iteration_answered (url f : string) (m m' : PluginMessage)
  (o : Outside) :
  urlError url = None ->
  (forall sent req, exists res, transport sent req = inl res) ->
  unmarshalMessage f m = (m', None) ->
  readerIteration render encodeString urlError transport unmarshalMessage
    url (ReadOk f) m o
  = Continue m'
      (doRequest
         (webhookRequest render encodeString url (Title m') (Message m'))
         (logLine (LogSending (payloadOf render m')) o)).
Proof.
  intros Hu Ht Hd.
  unfold readerIteration.
  rewrite Hd, send_unfold.
  cbv zeta.
  rewrite Hu.
  destruct (Ht (posted o)
              (webhookRequest render encodeString url (Title m') (Message m')))
    as [res Hres].
  rewrite Hres.
  reflexivity.
Qed.

(** X13: under a webhook URL that parses and a webhook that answers
    every request, whatever the status of its answers, the reader logs no
    POST error: over frames that all decode, every event is posted once,
    in order. *)
Theorem reader_posts_all_when_answered
  (url : string) (fs : list string) (ms : list PluginMessage) :
  urlError url = None ->
  (forall sent req, exists res, transport sent req = inl res) ->
  forall (m0 : PluginMessage) (o0 : Outside),
    Decodes unmarshalMessage m0 fs ms ->
    exists o,
      loop url (map ReadOk fs) m0 o0 = (Blocked (last ms m0), o)
      /\ postErrors (logged o) = postErrors (logged o0)
      /\ posted o
         = posted o0
           ++ map (fun m => webhookRequest render encodeString url
                              (Title m) (Message m)) ms.
Proof.
  intros Hu Ht m0 o0 Hd.
  revert o0.
  induction Hd as [m|m f m' fs ms Hf _ IH]; intros o0.
  - exists o0.
    cbn.
    rewrite app_nil_r.
    auto.
  - destruct (IH (doRequest
                    (webhookRequest render encodeString url
                       (Title m') (Message m'))
                    (logLine (LogSending (payloadOf render m')) o0)))
      as [o [Hl [He Hp]]].
    exists o.
    rewrite last_cons_default.
    split; [|split].
    + unfold loop in *.
      cbn [map readerLoop].
      rewrite (iteration_answered url f m m' o0 Hu Ht Hf).
      exact Hl.
    + rewrite He.
      cbn [doRequest logLine logged].
      rewrite postErrors_app.
      cbn.
      apply app_nil_r.
    + rewrite Hp.
      cbn [doRequest logLine posted map].
      rewrite <- app_assoc.
      reflexivity.
Qed.

End ReaderPaths.

Lemma reader_stops_at_read_error_witness :
  exists o,
    readerLoop renderParagraph encodeStringGo urlErrorGo (transportStatus 200)
      Codec.unmarshalMessage "http://example.com/hook"
      [ReadOk (frame "a" "b"); ReadOk (frame "c" "d");
       ReadErr "unexpected EOF"; ReadOk (frame "e" "f")]
      zeroMessage emptyOutside
    = (ProcessExit [ReadOk (frame "e" "f")],
       logLine (LogFatal "Websocket read message error: " "unexpected EOF") o)
    /\ length (forwards (logged o)) = 2.
Proof.
  destruct (reader_stops_at_read_error renderParagraph encodeStringGo
              urlErrorGo (transportStatus 200) Codec.unmarshalMessage
              "http://example.com/hook"
              [frame "a" "b"; frame "c" "d"] "unexpected EOF"
              [ReadOk (frame "e" "f")] zeroMessage emptyOutside _
              two_frames_decode)
    as [o [Hl [Hf _]]].
  exists o.
  split; [exact Hl|].
  rewrite Hf.
  reflexivity.
Defined.

Lemma reader_drops_all_on_bad_url_witness :
  exists o,
    readerLoop renderParagraph encodeStringGo urlErrorGo (transportStatus 200)
      Codec.unmarshalMessage ":"
      [ReadOk (frame "a" "b"); ReadOk (frame "c" "d")]
      zeroMessage emptyOutside
    = (Blocked {| Message := "d"; Title := "c";
                  Priority := 0%Z; Extras := None |}, o)
    /\ posted o = []
    /\ length (postErrors (logged o)) = 2.
Proof.
  destruct (reader_drops_all_on_bad_url renderParagraph encodeStringGo
              urlErrorGo (transportStatus 200) Codec.unmarshalMessage
              ":" _ [frame "a" "b"; frame "c" "d"] _ eq_refl
              zeroMessage emptyOutside two_frames_decode)
    as [o [Hl [Hp He]]].
  exists o.
  split; [exact Hl|].
  split; [exact Hp|].
  rewrite He.
  reflexivity.
Defined.

Lemma reader_posts_all_when_answered_witness :
  exists o,
    readerLoop renderParagraph encodeStringGo urlErrorGo (transportStatus 503)
      Codec.unmarshalMessage "http://example.com/hook"
      [ReadOk (frame "a" "b"); ReadOk (frame "c" "d")]
      zeroMessage emptyOutside
    = (Blocked {| Message := "d"; Title := "c";
                  Priority := 0%Z; Extras := None |}, o)
    /\ postErrors (logged o) = []
    /\ length (posted o) = 2.
Proof.
  destruct (reader_posts_all_when_answered renderParagraph encodeStringGo
              urlErrorGo (transportStatus 503) Codec.unmarshalMessage
              "http://example.com/hook" [frame "a" "b"; frame "c" "d"] _
              eq_refl
              (fun sent req =>
                 ex_intro _ {| StatusCode := 503%Z;
                               ResponseBody := EmptyString |} eq_refl)
              zeroMessage emptyOutside two_frames_decode)
    as [o [Hl [He Hp]]].
  exists o.
  split; [exact Hl|].
  split; [exact He|].
  rewrite Hp.
  reflexivity.
Defined.

(* ------------------------------------------------------------------ *)
(** * Further properties of the engine *)

Lemma map_snoc {A B : Type} (f : A -> B) (l : list A) (a : A) :
  map f l ++ [f a] = map f (l ++ [a]).
Proof.
  rewrite map_app.
  reflexivity.
Qed.

Section EnginePaths.

Variable render : string -> string.
Variable encodeString : string -> string.
Variable urlError : string -> option GoError.
Variable transport : list Request -> Request -> Response + GoError.
Variable dial : string -> option GoError.
Variable unmarshalMessage
  : string -> PluginMessage -> PluginMessage * option GoError.

Let step' := step render encodeString urlError transport unmarshalMessage.
Let run' := run render encodeString urlError transport unmarshalMessage.
Let start :=
  StartListener render encodeString urlError transport dial unmarshalMessage.

(** The reader writes nothing upstream and leaves the control loop where
    it is. *)
Lemma readerStep_control (url : string) (e : Engine) :
  let e' :=
    readerStep render encodeString urlError transport unmarshalMessage
      url e in
  wrote e' = wrote e /\ main e' = main e /\ doneClosed e' = doneClosed e
  /\ closes e' = closes e.
Proof.
  unfold readerStep.
  destruct (inbox e) as [|r rest]; [repeat split|].
  destruct (readerIteration _ _ _ _ _ url r _ _); repeat split.
Qed.

Lemma step_writesInv (url : string) (ev : Sched) (e : Engine) :
  writesInv e -> writesInv (step' url ev e).
Proof.
  intros Hinv.
  unfold step', step.
  destruct (exited e) as [code|]; [exact Hinv|].
  destruct ev as [|t wr|wr| |].
  - destruct Hinv as [Hd Hw].
    destruct (readerStep_control url e) as [Ew [Em [Ed _]]].
    unfold writesInv.
    rewrite Ew, Em, Ed.
    split; assumption.
  - destruct e as [ib im o w c ts dc mn ex].
    destruct Hinv as [Hd [ks Hw]].
    cbn in Hd, Hw.
    subst dc.
    destruct mn as [| | |r]; try (split; [reflexivity|exists ks; exact Hw]).
    subst w.
    destruct wr as [err|]; (split; [reflexivity|]); exists (ks ++ [t]); cbn;
      rewrite map_snoc; auto.
  - destruct e as [ib im o w c ts dc mn ex].
    destruct Hinv as [Hd [ks Hw]].
    cbn in Hd, Hw.
    subst dc.
    destruct mn as [| | |r]; try (split; [reflexivity|exists ks; exact Hw]).
    subst w.
    destruct wr as [err|]; (split; [reflexivity|]); exists ks; cbn; auto.
  - destruct e as [ib im o w c ts dc mn ex].
    destruct Hinv as [Hd [ks Hw]].
    cbn in Hd, Hw.
    subst dc.
    destruct mn as [| | |r]; split; try reflexivity; exists ks; exact Hw.
  - destruct e as [ib im o w c ts dc mn ex].
    destruct Hinv as [Hd [ks Hw]].
    cbn in Hd, Hw.
    subst dc.
    destruct mn as [| | |r]; split; try reflexivity; exists ks; exact Hw.
Qed.

Lemma run_writesInv (url : string) (sched : list Sched) :
  forall e, writesInv e -> writesInv (run' url sched e).
Proof.
  induction sched as [|ev sched IH]; intros e He; [exact He|].
  apply IH, step_writesInv, He.
Qed.

(** The engine as [StartListener] enters its loop. *)
Lemma start_connected (serverUrl webhookUrl : string)
  (frames : list ReadResult) (sched : list Sched) :
  dial serverUrl = None ->
  start serverUrl webhookUrl frames sched
  = run' webhookUrl sched
      (setMain Connected
         (engineLog (LogConnected serverUrl) (idle frames))).
Proof.
  intros Hd.
  unfold start, StartListener.
  rewrite Hd.
  reflexivity.
Qed.

(** X14: when [Dial] fails, [log.Fatal] ends the process at once: under
    every schedule nothing has been read, posted, written or closed, and
    [StartListener] has not returned. *)
Theorem StartListener_dial_failure
  (serverUrl webhookUrl : string) (frames : list ReadResult)
  (sched : list Sched) (err : GoError) :
  dial serverUrl = Some err ->
  let e := start serverUrl webhookUrl frames sched in
  exited e = Some 1%Z
  /\ main e = Connecting
  /\ inbox e = frames
  /\ posted (out e) = []
  /\ logged (out e) = [LogFatal "Websocket error: " err]
  /\ wrote e = []
  /\ closes e = 0.
Proof.
  intros Hd.
  unfold start, StartListener.
  rewrite Hd.
  repeat split.
Qed.

(** X15: under every schedule, on every connection and whether or not
    [Dial] succeeds, [ws.Close] is called at most once; it has been called
    exactly when [StartListener] has returned; and [done] is never
    closed. *)
Theorem close_at_most_once
  (serverUrl webhookUrl : string) (frames : list ReadResult)
  (sched : list Sched) :
  let e := start serverUrl webhookUrl frames sched in
  closes e <= 1
  /\ (closes e = 1 <-> exists r, main e = Returned r)
  /\ doneClosed e = false.
Proof.
  unfold start, StartListener.
  destruct (dial serverUrl) as [err|].
  - cbn.
    repeat split; try lia; try discriminate.
    intros [r Hr]; discriminate.
  - pose proof (run_connectedInv render encodeString urlError transport
                  unmarshalMessage webhookUrl sched
                  (setMain Connected
                     (engineLog (LogConnected serverUrl) (idle frames))))
      as Hinv.
    cbv zeta in Hinv |- *.
    destruct Hinv as [Hd Hm]; [split; reflexivity|].
    split; [|split; [|exact Hd]].
    + destruct (main _); try contradiction; lia.
    + destruct (main _) as [| | |r]; try contradiction; rewrite Hm; split;
        try discriminate; try (intros [r' Hr]; discriminate); eauto.
Qed.

(** X16: what a run writes upstream is keepalive text frames followed by
    at most one close frame, which is then the last frame written: while
    the loop runs only keepalives have been written, and once the grace
    wait has begun or [StartListener] has returned nil the close frame is
    there. *)
Theorem keepalives_then_close
  (serverUrl webhookUrl : string) (frames : list ReadResult)
  (sched : list Sched) :
  let e := start serverUrl webhookUrl frames sched in
  exists ts : list string,
    (wrote e = map TextMessage ts
     \/ wrote e = map TextMessage ts ++ [closeFrame])
    /\ (main e = Connected -> wrote e = map TextMessage ts)
    /\ (main e = Closing \/ main e = Returned None ->
        wrote e = map TextMessage ts ++ [closeFrame]).
Proof.
  unfold start, StartListener.
  destruct (dial serverUrl) as [err|].
  - exists [].
    cbn.
    split; [left; reflexivity|].
    split; [reflexivity|].
    intros [H|H]; discriminate.
  - pose proof (run_writesInv webhookUrl sched
                  (setMain Connected
                     (engineLog (LogConnected serverUrl) (idle frames))))
      as Hinv.
    cbv zeta in Hinv |- *.
    unfold run' in Hinv.
    destruct Hinv as [_ [ts Hw]];
      [split; [reflexivity|exists []; reflexivity]|].
    exists ts.
    destruct (main _) as [| | |[err|]]; try contradiction.
    + split; [left; exact Hw|].
      split; [intros _; exact Hw|].
      intros [H|H]; discriminate.
    + split; [right; exact Hw|].
      split; [discriminate|].
      intros _; exact Hw.
    + split; [exact Hw|].
      split; [discriminate|].
      intros [H|H]; discriminate.
    + split; [right; exact Hw|].
      split; [discriminate|].
      intros _; exact Hw.
Qed.

(** A step makes [StartListener] return an error only by a write that
    fails. *)
Lemma step_returned_error (url : string) (err : GoError) (ev : Sched)
  (e : Engine) :
  main (step' url ev e) = Returned (Some err) ->
  main e = Returned (Some err)
  \/ (exists t, ev = STick t (Some err))
  \/ ev = SInterrupt (Some err).
Proof.
  unfold step', step.
  destruct (exited e) as [code|]; [intros Hm; left; exact Hm|].
  destruct ev as [|t wr|wr| |].
  - destruct (readerStep_control url e) as [_ [Em _]].
    rewrite Em.
    intros Hm; left; exact Hm.
  - destruct e as [ib im o w c ts dc mn ex].
    destruct mn as [| | |r]; cbn; try (intros Hm; left; exact Hm).
    destruct wr as [werr|]; cbn; [|discriminate].
    intros [= ->].
    right; left; exists t; reflexivity.
  - destruct e as [ib im o w c ts dc mn ex].
    destruct mn as [| | |r]; cbn; try (intros Hm; left; exact Hm).
    destruct wr as [werr|]; cbn; [|discriminate].
    intros [= ->].
    right; right; reflexivity.
  - destruct e as [ib im o w c ts dc mn ex].
    destruct mn as [| | |r], dc; cbn;
      try discriminate; intros Hm; left; exact Hm.
  - destruct e as [ib im o w c ts dc mn ex].
    destruct mn as [| | |r]; cbn;
      try discriminate; intros Hm; left; exact Hm.
Qed.

(** An error [StartListener] has returned was there before or is that of
    a write in the schedule. *)
Lemma run_returned_error (url : string) (err : GoError)
  (sched : list Sched) :
  forall e,
    main (run' url sched e) = Returned (Some err) ->
    main e = Returned (Some err)
    \/ (exists t, In (STick t (Some err)) sched)
    \/ In (SInterrupt (Some err)) sched.
Proof.
  induction sched as [|ev sched IH]; intros e Hr; [left; exact Hr|].
  cbn [run' run] in Hr.
  destruct (IH _ Hr) as [Hm|[[t Ht]|Hi]].
  - destruct (step_returned_error url err ev e Hm) as [H|[[t ->]| ->]].
    + left; exact H.
    + right; left; exists t; left; reflexivity.
    + right; right; left; reflexivity.
  - right; left; exists t; right; exact Ht.
  - right; right; right; exact Hi.
Qed.

(** X17: an error returned by [StartListener] is the error of a write
    of the control loop, a keepalive or the close frame; no failure of
    the reader or of the webhook is ever returned. *)
Theorem returned_error_is_write_error
  (serverUrl webhookUrl : string) (frames : list ReadResult)
  (sched : list Sched) (err : GoError) :
  main (start serverUrl webhookUrl frames sched) = Returned (Some err) ->
  (exists t, In (STick t (Some err)) sched)
  \/ In (SInterrupt (Some err)) sched.
Proof.
  unfold start, StartListener.
  destruct (dial serverUrl) as [derr|]; [discriminate|].
  intros Hr.
  destruct (run_returned_error webhookUrl err sched _ Hr) as [H|H];
    [discriminate|exact H].
Qed.

(** A process that has not exited at the end had not exited before. *)
Lemma run_not_exited (url : string) (sched : list Sched) :
  forall e, exited (run' url sched e) = None -> exited e = None.
Proof.
  induction sched as [|ev sched IH]; intros e Hx; [exact Hx|].
  destruct (exited e) as [code|] eqn:He; [|reflexivity].
  cbn [run' run] in Hx.
  apply IH in Hx.
  unfold step in Hx.
  rewrite He in Hx.
  congruence.
Qed.

(** Once [StartListener] has returned, its result stands. *)
Lemma step_returned (url : string) (r : option GoError) (ev : Sched)
  (e : Engine) :
  main e = Returned r -> main (step' url ev e) = Returned r.
Proof.
  intros Hm.
  unfold step', step.
  destruct (exited e); [exact Hm|].
  destruct ev.
  - destruct (readerStep_control url e) as [_ [Em _]].
    rewrite Em; exact Hm.
  - unfold controlStep; rewrite Hm; exact Hm.
  - unfold controlStep; rewrite Hm; exact Hm.
  - unfold controlStep; rewrite Hm; exact Hm.
  - unfold controlStep; rewrite Hm; exact Hm.
Qed.

Lemma run_returned (url : string) (r : option GoError) (sched : list Sched) :
  forall e, main e = Returned r -> main (run' url sched e) = Returned r.
Proof.
  induction sched as [|ev sched IH]; intros e Hm; [exact Hm|].
  cbn [run' run].
  apply IH, step_returned, Hm.
Qed.

(** A quiet step leaves the control loop in its loop. *)
Lemma step_quiet (url : string) (ev : Sched) (e : Engine) :
  quiet ev = true ->
  main e = Connected -> doneClosed e = false ->
  main (step' url ev e) = Connected /\ doneClosed (step' url ev e) = false.
Proof.
  intros Hq Hm Hd.
  unfold step', step.
  destruct (exited e); [split; assumption|].
  destruct ev as [|t [werr|]|w| |]; try discriminate.
  - destruct (readerStep_control url e) as [_ [Em [Ed _]]].
    rewrite Em, Ed; split; assumption.
  - destruct e as [ib im o w c ts dc mn ex].
    cbn in Hm, Hd; subst mn dc.
    split; reflexivity.
  - destruct e as [ib im o w c ts dc mn ex].
    cbn in Hm, Hd; subst mn dc.
    split; reflexivity.
  - destruct e as [ib im o w c ts dc mn ex].
    cbn in Hm, Hd; subst mn dc.
    split; reflexivity.
Qed.

Lemma run_quiet (url : string) (sched : list Sched) :
  forallb quiet sched = true ->
  forall e,
    main e = Connected -> doneClosed e = false ->
    main (run' url sched e) = Connected
    /\ doneClosed (run' url sched e) = false.
Proof.
  induction sched as [|ev sched IH]; intros Hq e Hm Hd; [split; assumption|].
  cbn [forallb] in Hq.
  apply andb_prop in Hq as [Hev Hq].
  cbn [run' run].
  destruct (step_quiet url ev e Hev Hm Hd) as [Hm' Hd'].
  apply (IH Hq _ Hm' Hd').
Qed.

(** In the grace wait a step other than the timer changes nothing for
    the control loop, and the timer makes it return nil. *)
Lemma step_grace (url : string) (ev : Sched) (e : Engine) :
  main e = Closing -> doneClosed e = false -> exited e = None ->
  match ev with
  | STimeout => main (step' url ev e) = Returned None
  | _ => main (step' url ev e) = Closing
         /\ doneClosed (step' url ev e) = false
  end.
Proof.
  intros Hm Hd Hx.
  unfold step', step.
  rewrite Hx.
  destruct ev as [|t wr|wr| |].
  - destruct (readerStep_control url e) as [_ [Em [Ed _]]].
    rewrite Em, Ed; split; assumption.
  - destruct e as [ib im o w c ts dc mn ex].
    cbn in Hm, Hd; subst mn dc.
    split; reflexivity.
  - destruct e as [ib im o w c ts dc mn ex].
    cbn in Hm, Hd; subst mn dc.
    split; reflexivity.
  - destruct e as [ib im o w c ts dc mn ex].
    cbn in Hm, Hd; subst mn dc.
    split; reflexivity.
  - destruct e as [ib im o w c ts dc mn ex].
    cbn in Hm, Hd; subst mn dc.
    reflexivity.
Qed.

(** From the grace wait the timer takes the control loop to its return. *)
Lemma run_grace (url : string) (sched : list Sched) :
  In STimeout sched ->
  forall e,
    main e = Closing -> doneClosed e = false ->
    exited (run' url sched e) = None ->
    main (run' url sched e) = Returned None.
Proof.
  induction sched as [|ev sched IH]; intros Hin e Hm Hd Hx; [contradiction|].
  cbn [run' run] in Hx |- *.
  pose proof (run_not_exited url sched _ Hx) as Hx1.
  assert (He : exited e = None).
  { destruct (exited e) as [code|] eqn:He; [|reflexivity].
    unfold step in Hx1.
    rewrite He in Hx1.
    congruence. }
  pose proof (step_grace url ev e Hm Hd He) as Hs.
  unfold step' in Hs.
  destruct ev as [|t wr|wr| |]; [| | | |apply run_returned, Hs];
    destruct Hs as [Hm' Hd'];
    (apply IH; auto; destruct Hin as [H|H]; [discriminate|exact H]).
Qed.

(** Quiet steps write one keepalive for every tick and nothing else. *)
Lemma run_quiet_wrote (url : string) (sched : list Sched) :
  forallb quiet sched = true ->
  forall e,
    main e = Connected -> doneClosed e = false ->
    exited (run' url sched e) = None ->
    wrote (run' url sched e) = wrote e ++ map TextMessage (ticks sched).
Proof.
  induction sched as [|ev sched IH]; intros Hq e Hm Hd Hx.
  - cbn.
    rewrite app_nil_r.
    reflexivity.
  - cbn [forallb] in Hq.
    apply andb_prop in Hq as [Hev Hq].
    cbn [run' run] in Hx |- *.
    destruct (step_quiet url ev e Hev Hm Hd) as [Hm' Hd'].
    pose proof (IH Hq _ Hm' Hd' Hx) as Hi.
    pose proof (run_not_exited url sched _ Hx) as Hx1.
    unfold run', step' in *.
    rewrite Hi.
    unfold step in Hx1 |- *.
    destruct (exited e) as [code|] eqn:He; [rewrite He in Hx1; congruence|].
    destruct ev as [|t [werr|]|w| |]; try discriminate.
    + destruct (readerStep_control url e) as [Ew _].
      rewrite Ew.
      reflexivity.
    + destruct e as [ib im o w c ts dc mn ex].
      cbn in Hm; subst mn.
      cbn.
      rewrite <- app_assoc.
      reflexivity.
    + destruct e as [ib im o w c ts dc mn ex].
      cbn in Hm, Hd; subst mn dc.
      reflexivity.
    + destruct e as [ib im o w c ts dc mn ex].
      cbn in Hm; subst mn.
      reflexivity.
Qed.

(** Outside its loop the control loop writes nothing more. *)
Lemma step_frozen (url : string) (ev : Sched) (e : Engine) :
  main e = Closing \/ (exists r, main e = Returned r) ->
  wrote (step' url ev e) = wrote e
  /\ (main (step' url ev e) = Closing
      \/ exists r, main (step' url ev e) = Returned r).
Proof.
  intros Hm.
  unfold step', step.
  destruct (exited e); [split; [reflexivity|exact Hm]|].
  destruct ev as [|t wr|wr| |].
  - destruct (readerStep_control url e) as [Ew [Em _]].
    rewrite Ew, Em.
    split; [reflexivity|exact Hm].
  - destruct e as [ib im o w c ts dc mn ex].
    cbn in Hm.
    destruct Hm as [->|[r ->]]; cbn; eauto.
  - destruct e as [ib im o w c ts dc mn ex].
    cbn in Hm.
    destruct Hm as [->|[r ->]]; cbn; eauto.
  - destruct e as [ib im o w c ts dc mn ex].
    cbn in Hm.
    destruct Hm as [->|[r ->]]; destruct dc; cbn; eauto.
  - destruct e as [ib im o w c ts dc mn ex].
    cbn in Hm.
    destruct Hm as [->|[r ->]]; cbn; eauto.
Qed.

Lemma run_frozen (url : string) (sched : list Sched) :
  forall e,
    main e = Closing \/ (exists r, main e = Returned r) ->
    wrote (run' url sched e) = wrote e.
Proof.
  induction sched as [|ev sched IH]; intros e Hm; [reflexivity|].
  cbn [run' run].
  destruct (step_frozen url ev e Hm) as [Hw Hm'].
  unfold step' in Hw, Hm'.
  rewrite (IH _ Hm').
  exact Hw.
Qed.

(** A run up to the first step that is not quiet: the control loop is in
    its loop, and has written the keepalives of the ticks so far. *)
Lemma run_to_event (serverUrl webhookUrl : string)
  (frames : list ReadResult) (pre rest : list Sched) (ev : Sched) :
  dial serverUrl = None ->
  forallb quiet pre = true ->
  exited (start serverUrl webhookUrl frames (pre ++ ev :: rest)) = None ->
  exists e1,
    start serverUrl webhookUrl frames (pre ++ ev :: rest)
    = run' webhookUrl rest (step' webhookUrl ev e1)
    /\ main e1 = Connected
    /\ doneClosed e1 = false
    /\ exited e1 = None
    /\ wrote e1 = map TextMessage (ticks pre).
Proof.
  intros Hdial Hq Hx.
  rewrite start_connected in Hx |- * by exact Hdial.
  unfold run', step' in *.
  rewrite run_app in Hx |- *.
  cbn [run] in Hx |- *.
  set (e0 := setMain Connected
               (engineLog (LogConnected serverUrl) (idle frames))) in *.
  exists (run render encodeString urlError transport unmarshalMessage
            webhookUrl pre e0).
  pose proof (run_not_exited webhookUrl rest _ Hx) as Hx1.
  assert (Hx0 : exited (run render encodeString urlError transport
                          unmarshalMessage webhookUrl pre e0) = None).
  { destruct (exited (run _ _ _ _ _ webhookUrl pre e0)) as [code|] eqn:He;
      [|reflexivity].
    unfold run', step in Hx1.
    rewrite He in Hx1.
    congruence. }
  destruct (run_quiet webhookUrl pre Hq e0 eq_refl eq_refl) as [Hm1 Hd1].
  split; [reflexivity|].
  split; [exact Hm1|].
  split; [exact Hd1|].
  split; [exact Hx0|].
  exact (run_quiet_wrote webhookUrl pre Hq e0 eq_refl eq_refl Hx0).
Qed.

(** The count of closes of a connected run that has returned. *)
Lemma returned_closed_once (serverUrl webhookUrl : string)
  (frames : list ReadResult) (sched : list Sched) (r : option GoError) :
  dial serverUrl = None ->
  main (start serverUrl webhookUrl frames sched) = Returned r ->
  closes (start serverUrl webhookUrl frames sched) = 1.
Proof.
  intros Hdial Hm.
  rewrite start_connected in Hm |- * by exact Hdial.
  pose proof (run_connectedInv render encodeString urlError transport
                unmarshalMessage webhookUrl sched
                (setMain Connected
                   (engineLog (LogConnected serverUrl) (idle frames)))
                (conj eq_refl eq_refl)) as [_ Hc].
  unfold run' in *.
  rewrite Hm in Hc.
  exact Hc.
Qed.

(** X20: while nothing but the reader and ticks whose keepalive is
    written have happened, the control loop is in its loop and has written
    one text frame for every tick, in the order of the ticks and with the
    time text of each; the connection is open. *)
Theorem keepalive_per_tick
  (serverUrl webhookUrl : string) (frames : list ReadResult)
  (sched : list Sched) :
  dial serverUrl = None ->
  forallb quiet sched = true ->
  let e := start serverUrl webhookUrl frames sched in
  exited e = None ->
  main e = Connected
  /\ wrote e = map TextMessage (ticks sched)
  /\ closes e = 0.
Proof.
  intros Hdial Hq e Hx.
  subst e.
  rewrite start_connected in Hx |- * by exact Hdial.
  set (e0 := setMain Connected
               (engineLog (LogConnected serverUrl) (idle frames))) in *.
  destruct (run_quiet webhookUrl sched Hq e0 eq_refl eq_refl) as [Hm Hd].
  split; [exact Hm|].
  split; [exact (run_quiet_wrote webhookUrl sched Hq e0 eq_refl eq_refl Hx)|].
  pose proof (run_connectedInv render encodeString urlError transport
                unmarshalMessage webhookUrl sched e0
                (conj eq_refl eq_refl)) as [_ Hc].
  unfold run' in *.
  rewrite Hm in Hc.
  exact Hc.
Qed.

(** X21: a keepalive that cannot be written ends the run at once:
    [StartListener] returns the error of the write, the connection is
    closed once, and the frame that failed is the last one handed to the
    connection; no close frame is sent, then or later. *)
Theorem keepalive_failure
  (serverUrl webhookUrl : string) (frames : list ReadResult)
  (pre rest : list Sched) (t : string) (err : GoError) :
  dial serverUrl = None ->
  forallb quiet pre = true ->
  let e := start serverUrl webhookUrl frames
             (pre ++ STick t (Some err) :: rest) in
  exited e = None ->
  main e = Returned (Some err)
  /\ closes e = 1
  /\ wrote e = map TextMessage (ticks pre ++ [t]).
Proof.
  intros Hdial Hq e Hx.
  destruct (run_to_event serverUrl webhookUrl frames pre rest
              (STick t (Some err)) Hdial Hq Hx)
    as [e1 [He [Hm1 [Hd1 [Hx1 Hw1]]]]].
  assert (Hs : main (step' webhookUrl (STick t (Some err)) e1)
               = Returned (Some err)
               /\ wrote (step' webhookUrl (STick t (Some err)) e1)
                  = wrote e1 ++ [TextMessage t]).
  { unfold step', step.
    rewrite Hx1.
    destruct e1 as [ib im o w c ts dc mn ex].
    cbn in Hm1; subst mn.
    split; reflexivity. }
  destruct Hs as [Hm Hw].
  assert (Hr : main e = Returned (Some err)).
  { subst e; rewrite He; apply run_returned, Hm. }
  split; [exact Hr|].
  split; [exact (returned_closed_once _ _ _ _ _ Hdial Hr)|].
  subst e.
  rewrite He, run_frozen by (right; eexists; exact Hm).
  rewrite Hw, Hw1, map_app.
  reflexivity.
Qed.

(** X22: a close frame that cannot be written ends the run without a
    grace wait: [StartListener] returns the error of the write and the
    connection is closed once. *)
Theorem close_frame_failure
  (serverUrl webhookUrl : string) (frames : list ReadResult)
  (pre rest : list Sched) (err : GoError) :
  dial serverUrl = None ->
  forallb quiet pre = true ->
  let e := start serverUrl webhookUrl frames
             (pre ++ SInterrupt (Some err) :: rest) in
  exited e = None ->
  main e = Returned (Some err)
  /\ closes e = 1
  /\ wrote e = map TextMessage (ticks pre) ++ [closeFrame].
Proof.
  intros Hdial Hq e Hx.
  destruct (run_to_event serverUrl webhookUrl frames pre rest
              (SInterrupt (Some err)) Hdial Hq Hx)
    as [e1 [He [Hm1 [Hd1 [Hx1 Hw1]]]]].
  assert (Hs : main (step' webhookUrl (SInterrupt (Some err)) e1)
               = Returned (Some err)
               /\ wrote (step' webhookUrl (SInterrupt (Some err)) e1)
                  = wrote e1 ++ [closeFrame]).
  { unfold step', step.
    rewrite Hx1.
    destruct e1 as [ib im o w c ts dc mn ex].
    cbn in Hm1; subst mn.
    split; reflexivity. }
  destruct Hs as [Hm Hw].
  assert (Hr : main e = Returned (Some err)).
  { subst e; rewrite He; apply run_returned, Hm. }
  split; [exact Hr|].
  split; [exact (returned_closed_once _ _ _ _ _ Hdial Hr)|].
  subst e.
  rewrite He, run_frozen by (right; eexists; exact Hm).
  rewrite Hw, Hw1.
  reflexivity.
Qed.

(** X19: an interrupt that reaches the control loop in its loop, with
    the close frame written and the timer of the grace wait firing later,
    makes [StartListener] return nil, unless the reader has ended the
    process in between: the connection is then closed once, and the one
    close frame, sent after the keepalives, is the last frame written,
    whatever else happens during and after the grace wait. *)
Theorem graceful_shutdown
  (serverUrl webhookUrl : string) (frames : list ReadResult)
  (pre rest : list Sched) :
  dial serverUrl = None ->
  forallb quiet pre = true ->
  In STimeout rest ->
  let e := start serverUrl webhookUrl frames
             (pre ++ SInterrupt None :: rest) in
  exited e = None ->
  main e = Returned None
  /\ closes e = 1
  /\ wrote e = map TextMessage (ticks pre) ++ [closeFrame].
Proof.
  intros Hdial Hq Hin e Hx.
  destruct (run_to_event serverUrl webhookUrl frames pre rest
              (SInterrupt None) Hdial Hq Hx)
    as [e1 [He [Hm1 [Hd1 [Hx1 Hw1]]]]].
  assert (Hs : main (step' webhookUrl (SInterrupt None) e1) = Closing
               /\ doneClosed (step' webhookUrl (SInterrupt None) e1) = false
               /\ wrote (step' webhookUrl (SInterrupt None) e1)
                  = wrote e1 ++ [closeFrame]).
  { unfold step', step.
    rewrite Hx1.
    destruct e1 as [ib im o w c ts dc mn ex].
    cbn in Hm1, Hd1; subst mn dc.
    repeat split. }
  destruct Hs as [Hm [Hd Hw]].
  assert (Hr : main e = Returned None).
  { subst e.
    rewrite He in Hx |- *.
    exact (run_grace webhookUrl rest Hin _ Hm Hd Hx). }
  split; [exact Hr|].
  split; [exact (returned_closed_once _ _ _ _ _ Hdial Hr)|].
  subst e.
  rewrite He, run_frozen by (left; exact Hm).
  rewrite Hw, Hw1.
  reflexivity.
Qed.

End EnginePaths.

(** A stream server that refuses the connection of the engine. *)
Lemma StartListener_dial_failure_witness :
  let e :=
    StartListener renderParagraph encodeStringGo urlErrorGo
      (transportStatus 200) (fun _ => Some "connection refused")
      Codec.unmarshalMessage (streamUrl sampleConfig)
      "http://example.com/hook" [ReadOk (frame "a" "b")]
      [SReader; STick "t" None; SInterrupt None; STimeout] in
  exited e = Some 1%Z
  /\ main e = Connecting
  /\ inbox e = [ReadOk (frame "a" "b")]
  /\ posted (out e) = []
  /\ logged (out e) = [LogFatal "Websocket error: " "connection refused"]
  /\ wrote e = []
  /\ closes e = 0.
Proof.
  exact (StartListener_dial_failure renderParagraph encodeStringGo urlErrorGo
           (transportStatus 200) (fun _ => Some "connection refused")
           Codec.unmarshalMessage (streamUrl sampleConfig)
           "http://example.com/hook" [ReadOk (frame "a" "b")]
           [SReader; STick "t" None; SInterrupt None; STimeout]
           "connection refused" eq_refl).
Defined.

(** A keepalive that cannot be written. *)
Lemma returned_error_is_write_error_witness :
  (exists t,
      In (STick t (Some "broken pipe"))
         [STick "t1" None; SReader; STick "t2" (Some "broken pipe")])
  \/ In (SInterrupt (Some "broken pipe"))
        [STick "t1" None; SReader; STick "t2" (Some "broken pipe")].
Proof.
  exact (returned_error_is_write_error renderParagraph encodeStringGo
           urlErrorGo transportDown dialOk Codec.unmarshalMessage
           (streamUrl sampleConfig) "http://example.com/hook"
           [ReadOk (frame "a" "b")]
           [STick "t1" None; SReader; STick "t2" (Some "broken pipe")]
           "broken pipe" eq_refl).
Defined.

(** An interrupt after two keepalives, with a frame read during the grace
    wait. *)
Lemma graceful_shutdown_witness :
  let e :=
    StartListener renderParagraph encodeStringGo urlErrorGo
      (transportStatus 200) dialOk Codec.unmarshalMessage
      (streamUrl sampleConfig) "http://example.com/hook"
      [ReadOk (frame "a" "b")]
      ([STick "t1" None; STick "t2" None]
       ++ SInterrupt None :: [SReader; STick "t3" None; STimeout]) in
  main e = Returned None
  /\ closes e = 1
  /\ wrote e = map TextMessage (ticks [STick "t1" None; STick "t2" None])
               ++ [closeFrame].
Proof.
  exact (graceful_shutdown renderParagraph encodeStringGo urlErrorGo
           (transportStatus 200) dialOk Codec.unmarshalMessage
           (streamUrl sampleConfig) "http://example.com/hook"
           [ReadOk (frame "a" "b")]
           [STick "t1" None; STick "t2" None]
           [SReader; STick "t3" None; STimeout]
           eq_refl eq_refl
           (or_intror (or_intror (or_introl eq_refl))) eq_refl).
Defined.

(** A run in which keepalives and an interrupt come between the reader's
    steps: the second frame is cut short, and the process exits there. *)
Lemma engine_follows_readerLoop_witness :
  let e :=
    StartListener renderParagraph encodeStringGo urlErrorGo
      (transportStatus 200) dialOk Codec.unmarshalMessage
      (streamUrl sampleConfig) "http://example.com/hook"
      [ReadOk (frame "a" "b"); ReadOk "{"; ReadOk (frame "c" "d")]
      [STick "t1" None; SReader; SInterrupt None; SReader; STimeout;
       SReader] in
  exited e = Some 1%Z
  /\ inbox e = [ReadOk (frame "c" "d")]
  /\ length (posted (out e)) = 1.
Proof.
  pose proof (engine_follows_readerLoop renderParagraph encodeStringGo
                urlErrorGo (transportStatus 200) dialOk
                Codec.unmarshalMessage
                (streamUrl sampleConfig) "http://example.com/hook"
                [ReadOk (frame "a" "b"); ReadOk "{"; ReadOk (frame "c" "d")]
                [STick "t1" None; SReader; SInterrupt None; SReader;
                 STimeout; SReader]
                eq_refl (le_n 3)) as H.
  vm_compute in H.
  destruct H as [Hx [Hi [Hp _]]].
  vm_compute.
  split; [exact Hx|].
  split; [exact Hi|exact (f_equal (@length _) Hp)].
Defined.

(** Three ticks with a frame read in between. *)
Lemma keepalive_per_tick_witness :
  let e :=
    StartListener renderParagraph encodeStringGo urlErrorGo
      (transportStatus 200) dialOk Codec.unmarshalMessage
      (streamUrl sampleConfig) "http://example.com/hook"
      [ReadOk (frame "a" "b")]
      [STick "t1" None; SReader; STick "t2" None; STick "t3" None] in
  main e = Connected
  /\ wrote e = [TextMessage "t1"; TextMessage "t2"; TextMessage "t3"]
  /\ closes e = 0.
Proof.
  exact (keepalive_per_tick renderParagraph encodeStringGo urlErrorGo
           (transportStatus 200) dialOk Codec.unmarshalMessage
           (streamUrl sampleConfig) "http://example.com/hook"
           [ReadOk (frame "a" "b")]
           [STick "t1" None; SReader; STick "t2" None; STick "t3" None]
           eq_refl eq_refl eq_refl).
Defined.

(** The second keepalive fails; an interrupt that comes later is not
    answered with a close frame. *)
Lemma keepalive_failure_witness :
  let e :=
    StartListener renderParagraph encodeStringGo urlErrorGo
      (transportStatus 200) dialOk Codec.unmarshalMessage
      (streamUrl sampleConfig) "http://example.com/hook"
      [ReadOk (frame "a" "b")]
      ([STick "t1" None; SReader]
       ++ STick "t2" (Some "broken pipe") :: [SInterrupt None; STimeout]) in
  main e = Returned (Some "broken pipe")
  /\ closes e = 1
  /\ wrote e = [TextMessage "t1"; TextMessage "t2"].
Proof.
  exact (keepalive_failure renderParagraph encodeStringGo urlErrorGo
           (transportStatus 200) dialOk Codec.unmarshalMessage
           (streamUrl sampleConfig) "http://example.com/hook"
           [ReadOk (frame "a" "b")]
           [STick "t1" None; SReader] [SInterrupt None; STimeout]
           "t2" "broken pipe" eq_refl eq_refl eq_refl).
Defined.

Lemma close_frame_failure_witness :
  let e :=
    StartListener renderParagraph encodeStringGo urlErrorGo
      (transportStatus 200) dialOk Codec.unmarshalMessage
      (streamUrl sampleConfig) "http://example.com/hook"
      [ReadOk (frame "a" "b")]
      ([STick "t1" None]
       ++ SInterrupt (Some "broken pipe") :: [STimeout]) in
  main e = Returned (Some "broken pipe")
  /\ closes e = 1
  /\ wrote e = [TextMessage "t1"; closeFrame].
Proof.
  exact (close_frame_failure renderParagraph encodeStringGo urlErrorGo
           (transportStatus 200) dialOk Codec.unmarshalMessage
           (streamUrl sampleConfig) "http://example.com/hook"
           [ReadOk (frame "a" "b")]
           [STick "t1" None] [STimeout]
           "broken pipe" eq_refl eq_refl eq_refl).
Defined.
